(** * Autocompleter: an n-gram sentence completer

    Shallow embedding of [autocompleter.py] and of the parts of [util.py]
    and of the [nltk] counting library that it calls, followed by the
    properties of the prediction engine.

    - Tokens are [string]s.
    - A Python [dict] / [Counter] / [defaultdict] is an association list in
      insertion order (the order decides ties in [most_common]).
    - Python [int] parameters ([top_n], [max_sentence_length]) are [Z];
      counts, which never go below zero, are [nat].
    - [fit] runs in an exception-and-state monad over the object's only
      attribute, [ngram_counter].
    - For the aliasing questions the list objects live in a store
      [gmap loc (list token)]. *)

From Stdlib Require Import ZArith String Lia.
From stdpp Require Import base option list sorting strings gmap.

Local Open Scope string_scope.
Local Open Scope Z_scope.
Local Open Scope list_scope.

Definition token := string.

Definition DEFAULT_FILENAME : string := "autocompleter.pkl".
Definition RIGHT_SENT_PAD : token := "</s>".
Definition LEFT_SENT_PAD : token := "<s>".

(** ** Python containers *)

Module Py.

Section dict.
Context {K V : Type} `{EqDecision K}.

(** [d[k]] on a [defaultdict] / [Counter] whose missing value is [dflt].
    (A [defaultdict] also stores the default on a miss; a stored default
    reads back exactly like a miss, so reads are modelled without it.) *)
Fixpoint get (dflt : V) (k : K) (d : list (K * V)) : V :=
  match d with
  | [] => dflt
  | (k', v) :: d' => if decide (k = k') then v else get dflt k d'
  end.

(** [d[k] = f(d[k])]: an existing key keeps its place, a new key goes to
    the end of the insertion order. *)
Fixpoint update (dflt : V) (f : V -> V) (k : K) (d : list (K * V))
  : list (K * V) :=
  match d with
  | [] => [(k, f dflt)]
  | (k', v) :: d' =>
      if decide (k = k') then (k', f v) :: d'
      else (k', v) :: update dflt f k d'
  end.

Definition keys (d : list (K * V)) : list K := d.*1.
End dict.

(** [l[:n]] *)
Definition slice_to {A} (n : Z) (l : list A) : list A :=
  if 0 <=? n then take (Z.to_nat n) l
  else take (length l - Z.to_nat (- n)) l.

(** [l[-k:]] for [k > 0] *)
Definition slice_last {A} (k : nat) (l : list A) : list A :=
  drop (length l - k) l.

(** [word.startswith(start_string)] *)
Definition startswith (word start_string : string) : bool :=
  String.prefix start_string word.

End Py.

(** ** nltk: n-gram extraction and counting *)

Module Nltk.

(** [nltk.util.pad_sequence] *)
Definition pad_sequence (sequence : list token) (n : nat)
    (pad_left pad_right : bool) (left_pad_symbol right_pad_symbol : token)
  : list token :=
  let sequence :=
    if pad_left then replicate (n - 1) left_pad_symbol ++ sequence
    else sequence in
  if pad_right then sequence ++ replicate (n - 1) right_pad_symbol
  else sequence.

(** The first loop of [nltk.util.ngrams]: [while n > 1], move one item of
    the sequence to [history]; [None] is the [return] on [StopIteration]. *)
Fixpoint ngrams_fill (n : nat) (history sequence : list token)
  : option (list token * list token) :=
  match n with
  | S (S _ as n') =>
      match sequence with
      | [] => None
      | next_item :: sequence' =>
          ngrams_fill n' (history ++ [next_item]) sequence'
      end
  | _ => Some (history, sequence)
  end.

(** The second loop: append the item, yield the window, drop its head. *)
Fixpoint ngrams_yield (history sequence : list token) : list (list token) :=
  match sequence with
  | [] => []
  | item :: sequence' =>
      let history := history ++ [item] in
      history :: ngrams_yield (drop 1 history) sequence'
  end.

(** [nltk.ngrams(sequence, n, pad_left, pad_right, left_pad_symbol,
    right_pad_symbol)], the generator run to its end. *)
Definition ngrams (sequence : list token) (n : nat)
    (pad_left pad_right : bool) (left_pad_symbol right_pad_symbol : token)
  : list (list token) :=
  let sequence :=
    pad_sequence sequence n pad_left pad_right
                 left_pad_symbol right_pad_symbol in
  match ngrams_fill n [] sequence with
  | None => []
  | Some (history, sequence) => ngrams_yield history sequence
  end.

(** [nltk.probability.FreqDist]: a [Counter] of tokens. *)
Definition FreqDist := list (token * nat).

(** [nltk.probability.ConditionalFreqDist]: [defaultdict(FreqDist)] keyed
    by the context tuple. *)
Definition ConditionalFreqDist := list (list token * FreqDist).

(** [FreqDist.N()]: [sum(self.values())] *)
Definition N (fd : FreqDist) : nat := sum_list fd.*2.

(** [fd[word] += 1] *)
Definition incr (word : token) (fd : FreqDist) : FreqDist :=
  Py.update 0%nat S word fd.

(** [sorted(items, key=itemgetter(1), reverse=True)].  Python's sort is
    stable, also with [reverse=True]: items of equal count keep their
    order.  A stable sort has one possible result, so insertion sort
    stands for it. *)
Fixpoint insert_desc (x : token * nat) (l : list (token * nat))
  : list (token * nat) :=
  match l with
  | [] => [x]
  | y :: l' =>
      if (x.2 <? y.2)%nat then y :: insert_desc x l' else x :: y :: l'
  end.

Definition sorted_desc (items : list (token * nat)) : list (token * nat) :=
  foldr insert_desc [] items.

(** [Counter.most_common(n)] is [heapq.nlargest(n, self.items(),
    key=itemgetter(1))], which is
    [sorted(self.items(), key=itemgetter(1), reverse=True)[:n]] for
    [n >= 0]; the only caller passes [N()]. *)
Definition most_common (fd : FreqDist) (n : nat) : list (token * nat) :=
  take n (sorted_desc fd).

(** [nltk.lm.counter.NgramCounter]: [_counts[1]] is [unigrams]; the higher
    orders are [_counts[order]], a [defaultdict(ConditionalFreqDist)]. *)
Record NgramCounter := mkNgramCounter {
  unigrams : FreqDist;
  _counts : list (nat * ConditionalFreqDist)
}.

Definition empty_counter : NgramCounter := mkNgramCounter [] [].

(** One turn of the loop of [NgramCounter.update].  ([ngrams] yields no
    empty tuple; Python would raise [IndexError] on one.) *)
Definition update_ngram (self : NgramCounter) (ngram : list token)
  : NgramCounter :=
  let ngram_order := length ngram in
  match last ngram with
  | None => self
  | Some word =>
      if decide (ngram_order = 1%nat) then
        mkNgramCounter (incr word (unigrams self)) (_counts self)
      else
        let context := take (ngram_order - 1) ngram in
        mkNgramCounter (unigrams self)
          (Py.update [] (Py.update [] (incr word) context)
                     ngram_order (_counts self))
  end.

(** [NgramCounter.update(ngram_text)]: [for sent in ngram_text: for ngram
    in sent: ...] *)
Definition update (self : NgramCounter) (ngram_text : list (list (list token)))
  : NgramCounter :=
  foldl (foldl update_ngram) self ngram_text.

(** [NgramCounter(ngram_text)] *)
Definition new_counter (ngram_text : list (list (list token))) : NgramCounter :=
  update empty_counter ngram_text.

(** [counter[item]] for a tuple: [_counts[len(item) + 1][tuple(item)]] *)
Definition getitem_tuple (self : NgramCounter) (item : list token) : FreqDist :=
  Py.get [] item (Py.get [] (length item + 1)%nat (_counts self)).

(** [counter[item]] for a string: [_counts[1][item]] *)
Definition getitem_str (self : NgramCounter) (item : token) : nat :=
  Py.get 0%nat item (unigrams self).

End Nltk.

Import Nltk.

(** ** The Autocompleter object *)

Record Autocompleter := mkAutocompleter {
  ngram_counter : option NgramCounter
}.

(** [Autocompleter.__init__] *)
Definition init : Autocompleter := mkAutocompleter None.

(** Step 7 of [fit]: the three n-gram streams of the word-tokenized
    sentences and the counter built from [trigrams+bigrams+unigrams]. *)
Definition fit_model (tokenized_words : list (list token)) : NgramCounter :=
  let trigrams :=
    map (fun sentence => ngrams sentence 3 true true LEFT_SENT_PAD RIGHT_SENT_PAD)
        tokenized_words in
  let bigrams :=
    map (fun sentence => ngrams sentence 2 true true LEFT_SENT_PAD RIGHT_SENT_PAD)
        tokenized_words in
  let unigrams :=
    map (fun sentence => ngrams sentence 1 true true LEFT_SENT_PAD RIGHT_SENT_PAD)
        tokenized_words in
  new_counter (trigrams ++ bigrams ++ unigrams).

(** An object whose [fit] went through on these sentences. *)
Definition fitted (tokenized_words : list (list token)) : Autocompleter :=
  mkAutocompleter (Some (fit_model tokenized_words)).

(** [Autocompleter.in_vocabulary] *)
Definition in_vocabulary (self : Autocompleter) (word : token)
    (count_threshold : Z) : bool :=
  match ngram_counter self with
  | None => false
  | Some nc => count_threshold <? Z.of_nat (getitem_str nc word)
  end.

(** [Autocompleter.get_next_word] *)
Definition get_next_word (self : Autocompleter) (prefix_string : list token)
    (top_n : Z) (start_string : string) : list token :=
  match ngram_counter self with
  | None => []
  | Some nc =>
      if (length prefix_string <? 1)%nat then []
      else
        let conditional_word_tuple := Py.slice_last 2 prefix_string in
        let number_of_words := N (unigrams nc) in
        let predicted_words :=
          most_common (getitem_tuple nc conditional_word_tuple)
                      number_of_words in
        let top_n_words :=
          Py.slice_to top_n
            (List.filter (fun wf => Py.startswith wf.1 start_string)
                         predicted_words).*1 in
        top_n_words
  end.

(** The [for] loop of [get_sentence]; [iterations] is what is left of
    [range(max_sentence_length - len(prefix_string))]. *)
Fixpoint get_sentence_loop (self : Autocompleter) (iterations : nat)
    (sentence : list token) : list token :=
  match iterations with
  | O => sentence
  | S iterations' =>
      match get_next_word self sentence 1 "" with
      | [] => sentence
      | word0 :: _ =>
          if decide (word0 = RIGHT_SENT_PAD) then sentence
          else get_sentence_loop self iterations' (sentence ++ [word0])
      end
  end.

(** [Autocompleter.get_sentence] *)
Definition get_sentence (self : Autocompleter) (prefix_string : list token)
    (max_sentence_length : Z) : list token :=
  match ngram_counter self with
  | None => []
  | Some _ =>
      if (max_sentence_length <=? Z.of_nat (length prefix_string))
         || (length prefix_string =? 0)%nat
      then prefix_string
      else
        get_sentence_loop self
          (Z.to_nat (max_sentence_length - Z.of_nat (length prefix_string)))
          prefix_string
  end.

(** ** The text pipeline and [generate_completions]

    The cleaning, spell-correction, entity-encoding, tokenizing,
    detokenizing and true-casing steps are calls into [util.py] and its
    libraries on strings; the engine only passes their results on, so
    they are taken as they come. *)

Record TextPipeline := mkTextPipeline {
  format_and_clean : string -> string;
  spell_correction : string -> string;
  encode_entities : string -> string;
  word_tokenize : string -> list token;
  detokenize : list token -> string;
  get_true_case : string -> string
}.

(** [Autocompleter.generate_completions] *)
Definition generate_completions (util : TextPipeline) (self : Autocompleter)
    (prefix_string : string) (max_sentence_length max_num_of_sentences : Z)
  : list string :=
  match ngram_counter self with
  | None => []
  | Some _ =>
      let prefix_string := format_and_clean util prefix_string in
      let prefix_string := spell_correction util prefix_string in
      let prefix_string := encode_entities util prefix_string in
      let tokenized_words := word_tokenize util prefix_string in
      match last tokenized_words with
      | None => []
      | Some last_word =>
          let '(start_string, tokenized_words) :=
            if negb (in_vocabulary self last_word 50)
            then (last_word, take (length tokenized_words - 1) tokenized_words)
            else ("", tokenized_words) in
          let top_predicted_words :=
            get_next_word self tokenized_words max_num_of_sentences
                          start_string in
          map (fun word =>
                 let sentence_seed := tokenized_words ++ [word] in
                 let sentence :=
                   get_sentence self sentence_seed max_sentence_length in
                 get_true_case util (detokenize util sentence))
              top_predicted_words
      end
  end.

(** ** [fit]: loading the corpus and replacing the model *)

(** Decoded JSON; numbers are the integers (the corpus' ids). *)
#[local] Unset Elimination Schemes.
Inductive json :=
| JNull
| JBool (b : bool)
| JNum (n : Z)
| JStr (s : string)
| JArr (items : list json)
| JObj (fields : list (string * json)).
#[local] Set Elimination Schemes.

Inductive exn :=
| FileNotFoundError
| PermissionError
| JSONDecodeError
| KeyError (key : string)
| TypeError
| LookupError.

Module Util.

(** [obj[key]] with a string key *)
Definition getitem (obj : json) (key : string) : exn + json :=
  match obj with
  | JObj fields =>
      match List.find (fun kv => bool_decide (kv.1 = key)) fields with
      | Some kv => inr kv.2
      | None => inl (KeyError key)
      end
  | _ => inl TypeError
  end.

(** [for x in obj]: a list gives its items, a dict its keys, a string its
    characters; nothing else iterates. *)
Fixpoint chars (s : string) : list json :=
  match s with
  | EmptyString => []
  | String c s' => JStr (String c EmptyString) :: chars s'
  end.

Definition iter (obj : json) : exn + list json :=
  match obj with
  | JArr items => inr items
  | JObj fields => inr (map (fun kv => JStr kv.1) fields)
  | JStr s => inr (chars s)
  | _ => inl TypeError
  end.

(** Truth value of a decoded JSON value *)
Definition truthy (v : json) : bool :=
  match v with
  | JNull => false
  | JBool b => b
  | JNum n => negb (n =? 0)
  | JStr s => negb (bool_decide (s = ""))
  | JArr items => negb (bool_decide (length items = 0%nat))
  | JObj fields => negb (bool_decide (length fields = 0%nat))
  end.

(** [v in ids] for a list of integer ids ([True == 1], [False == 0]) *)
Definition in_ids (v : json) (ids : list Z) : bool :=
  match v with
  | JNum n => bool_decide (n ∈ ids)
  | JBool b => bool_decide ((if b then 1 else 0) ∈ ids)
  | _ => false
  end.

(** The inner loop of [get_operator_messages] over [issue["Messages"]] *)
Fixpoint messages_loop (messages : list json) (operator_messages : list json)
  : exn + list json :=
  match messages with
  | [] => inr operator_messages
  | message :: messages' =>
      match getitem message "IsFromCustomer" with
      | inl e => inl e
      | inr from_customer =>
          if negb (truthy from_customer) then
            match getitem message "Text" with
            | inl e => inl e
            | inr text => messages_loop messages' (operator_messages ++ [text])
            end
          else messages_loop messages' operator_messages
      end
  end.

(** The outer loop over [json_conversation_structure["Issues"]] *)
Fixpoint issues_loop (issues : list json)
    (company_group_id_filter : option (list Z)) (operator_messages : list json)
  : exn + list json :=
  match issues with
  | [] => inr operator_messages
  | issue :: issues' =>
      let selected :=
        match company_group_id_filter with
        | None => inr true
        | Some ids =>
            match getitem issue "CompanyGroupId" with
            | inl e => inl e
            | inr id => inr (in_ids id ids)
            end
        end in
      match selected with
      | inl e => inl e
      | inr false => issues_loop issues' company_group_id_filter operator_messages
      | inr true =>
          match getitem issue "Messages" with
          | inl e => inl e
          | inr messages =>
              match iter messages with
              | inl e => inl e
              | inr messages =>
                  match messages_loop messages operator_messages with
                  | inl e => inl e
                  | inr operator_messages =>
                      issues_loop issues' company_group_id_filter
                                  operator_messages
                  end
              end
          end
      end
  end.

(** [util.get_operator_messages] *)
Definition get_operator_messages (json_conversation_structure : json)
    (company_group_id_filter : option (list Z)) : exn + list json :=
  match getitem json_conversation_structure "Issues" with
  | inl e => inl e
  | inr issues =>
      match iter issues with
      | inl e => inl e
      | inr issues => issues_loop issues company_group_id_filter []
      end
  end.

End Util.

(** What [fit] sees of the world: the files, the JSON decoder and the
    sentence tokenizer (which raises on a message that is not text). *)
Inductive file_state :=
| Missing
| Unreadable
| Contents (text : string).

Record World := mkWorld {
  files : string -> file_state;
  json_loads : string -> option json;
  sentence_tokenize : list json -> exn + list string
}.

(** [open(json_filename)] and reading it *)
Definition open_read (w : World) (filename : string) : exn + string :=
  match files w filename with
  | Missing => inl FileNotFoundError
  | Unreadable => inl PermissionError
  | Contents text => inr text
  end.

(** [json.load] *)
Definition json_load (w : World) (text : string) : exn + json :=
  match json_loads w text with
  | None => inl JSONDecodeError
  | Some v => inr v
  end.

(** Methods run on the object: they end in a value or an exception, and
    leave the object in some state either way. *)
Definition Method (A : Type) : Type :=
  Autocompleter -> (exn + A) * Autocompleter.

#[global] Instance Method_ret : MRet Method :=
  fun A (a : A) self => (inr a, self).

#[global] Instance Method_bind : MBind Method :=
  fun A B (k : A -> Method B) (m : Method A) self =>
    match m self with
    | (inl e, self') => (inl e, self')
    | (inr a, self') => k a self'
    end.

(** A call that does not touch the object *)
Definition call {A} (r : exn + A) : Method A := fun self => (r, self).

(** [self.ngram_counter = nc] *)
Definition set_ngram_counter (nc : NgramCounter) : Method unit :=
  fun _ => (inr tt, mkAutocompleter (Some nc)).

(** [Autocompleter.fit] (the [verbose] printing left out) *)
Definition fit (w : World) (util : TextPipeline) (json_filename : string)
    (company_group_id_filter : option (list Z)) : Method unit :=
  text ← call (open_read w json_filename);
  conversations ← call (json_load w text);
  operator_messages ←
    call (Util.get_operator_messages conversations company_group_id_filter);
  tokenized_sentences ← call (sentence_tokenize w operator_messages);
  tokenized_sentences ← mret (map (format_and_clean util) tokenized_sentences);
  tokenized_sentences ← mret (map (spell_correction util) tokenized_sentences);
  tokenized_sentences ← mret (map (encode_entities util) tokenized_sentences);
  tokenized_words ← mret (map (word_tokenize util) tokenized_sentences);
  set_ngram_counter (fit_model tokenized_words).

(** ** The list objects in a store *)

Definition loc := positive.

(** [list(xs)] and list displays make a new object. *)
Definition alloc (h : gmap loc (list token)) (xs : list token)
  : loc * gmap loc (list token) :=
  let l := fresh (dom h) in (l, <[l := xs]> h).

(** [get_next_word] on list objects: the argument is a reference, the
    result a reference to a new list. *)
Definition get_next_word_ref (self : Autocompleter)
    (h : gmap loc (list token)) (prefix_string : loc)
    (top_n : Z) (start_string : string)
  : option (loc * gmap loc (list token)) :=
  match ngram_counter self with
  | None => Some (alloc h [])
  | Some nc =>
      xs ← h !! prefix_string;
      if (length xs <? 1)%nat then Some (alloc h [])
      else
        let '(prefix_string, h) := alloc h xs in
        xs ← h !! prefix_string;
        let conditional_word_tuple := Py.slice_last 2 xs in
        let number_of_words := N (unigrams nc) in
        let predicted_words :=
          most_common (getitem_tuple nc conditional_word_tuple)
                      number_of_words in
        Some (alloc h
          (Py.slice_to top_n
            (List.filter (fun wf => Py.startswith wf.1 start_string)
                         predicted_words).*1))
  end.

(** The loop of [get_sentence]; [sentence.append(word[0])] writes to the
    object [sentence] refers to. *)
Fixpoint get_sentence_loop_ref (self : Autocompleter) (iterations : nat)
    (h : gmap loc (list token)) (sentence : loc)
  : option (loc * gmap loc (list token)) :=
  match iterations with
  | O => Some (sentence, h)
  | S iterations' =>
      '(word, h) ← get_next_word_ref self h sentence 1 "";
      ws ← h !! word;
      match ws with
      | [] => Some (sentence, h)
      | word0 :: _ =>
          if decide (word0 = RIGHT_SENT_PAD) then Some (sentence, h)
          else
            xs ← h !! sentence;
            get_sentence_loop_ref self iterations'
              (<[sentence := xs ++ [word0]]> h) sentence
      end
  end.

(** [get_sentence] on list objects: the early return hands back the
    argument itself. *)
Definition get_sentence_ref (self : Autocompleter)
    (h : gmap loc (list token)) (prefix_string : loc)
    (max_sentence_length : Z)
  : option (loc * gmap loc (list token)) :=
  match ngram_counter self with
  | None => Some (alloc h [])
  | Some _ =>
      xs ← h !! prefix_string;
      if (max_sentence_length <=? Z.of_nat (length xs))
         || (length xs =? 0)%nat
      then Some (prefix_string, h)
      else
        let '(prefix_string, h) := alloc h xs in
        let sentence := prefix_string in
        get_sentence_loop_ref self
          (Z.to_nat (max_sentence_length - Z.of_nat (length xs)))
          h sentence
  end.

(** * Specification-level definitions *)

(** [contextDistribution(order, context)]: the distribution stored for a
    context at an order. *)
Definition distribution (nc : NgramCounter) (order : nat)
    (context : list token) : FreqDist :=
  Py.get [] context (Py.get [] order (_counts nc)).

(** The ranked candidates of a context that start with [start_string],
    before [top_n] cuts them. *)
Definition matching_words (nc : NgramCounter) (order : nat)
    (context : list token) (start_string : string) : list token :=
  (List.filter (fun wf => Py.startswith wf.1 start_string)
     (most_common (distribution nc order context) (N (unigrams nc)))).*1.

(** A small training corpus in the manner of the test fixture. *)
Definition corpus : list (list token) :=
  [ ["how"; "can"; "i"; "assist"; "you"; "with"; "today"; "?"];
    ["how"; "can"; "i"; "help"; "you"; "with"; "today"; "?"];
    ["how"; "to"; "reset"; "it"];
    ["how"; "can"; "i"; "assist"; "you"];
    ["what"; "is"; "your"; "account"; "number"; "?"] ].

(** A text pipeline that splits on nothing and changes nothing, and a
    world without files, for running [fit] on concrete inputs. *)
Definition plain_pipeline : TextPipeline :=
  mkTextPipeline id id id (fun s => [s]) (fun ws => String.concat " " ws) id.

Definition empty_world : World :=
  mkWorld (fun _ => Missing) (fun _ => None) (fun _ => inr []).

(** A caller's store with one list object. *)
Definition caller_store : gmap loc (list token) :=
  {[ 1%positive := ["how"; "can"] ]}.

(** [count(order, context, word)]: the stored count, 0 when the pair was
    never met; order 1 has the empty context and lives in [unigrams]. *)
Definition count (nc : NgramCounter) (order : nat) (context : list token)
    (word : token) : nat :=
  if decide (order = 1%nat) then
    if decide (context = []) then getitem_str nc word else 0%nat
  else Py.get 0%nat word (distribution nc order context).

(** An n-gram that counts for (order, context, word). *)
Definition hit (order : nat) (context : list token) (word : token)
    (ngram : list token) : Prop :=
  length ngram = order /\ take (order - 1) ngram = context /\
  last ngram = Some word.

#[global] Instance hit_dec order context word ngram :
  Decision (hit order context word ngram).
Proof. unfold hit. apply _. Defined.

(** The counting rule in the words of the specification. *)
Module Spec.

(** The sentence with n-1 START sentinels on the left and n-1 END
    sentinels on the right. *)
Definition padded (n : nat) (sentence : list token) : list token :=
  replicate (n - 1) LEFT_SENT_PAD ++ sentence
  ++ replicate (n - 1) RIGHT_SENT_PAD.

(** A window of width [n] slid across the sequence: one at each position
    that leaves room for it. *)
Definition windows (n : nat) (l : list token) : list (list token) :=
  (fun i => take n (drop i l)) <$> seq 0 (length l + 1 - n).

(** How often one sentence increments (order n, context, word): the
    windows whose first n-1 tokens are the context and whose last token
    is the word. *)
Definition increments (n : nat) (context : list token) (word : token)
    (sentence : list token) : nat :=
  length (filter (fun window => take (n - 1) window = context
                                /\ last window = Some word)
                 (windows n (padded n sentence))).

(** The count after a build over all sentences. *)
Definition count (sentences : list (list token)) (n : nat)
    (context : list token) (word : token) : nat :=
  sum_list (increments n context word <$> sentences).

End Spec.

(** ** First-seen order *)

(** The n-grams in the order [fit] hands them to the counter:
    [trigrams+bigrams+unigrams], each sentence by sentence. *)
Definition training_stream (tokenized_words : list (list token))
  : list (list token) :=
  concat
    (map (fun sentence =>
            ngrams sentence 3 true true LEFT_SENT_PAD RIGHT_SENT_PAD)
         tokenized_words
     ++ map (fun sentence =>
               ngrams sentence 2 true true LEFT_SENT_PAD RIGHT_SENT_PAD)
            tokenized_words
     ++ map (fun sentence =>
               ngrams sentence 1 true true LEFT_SENT_PAD RIGHT_SENT_PAD)
            tokenized_words).

(** The word an n-gram counts after a context at an order, if it is an
    n-gram of that order and context. *)
Definition follower (order : nat) (context : list token)
    (ngram : list token) : option token :=
  if decide (length ngram = order /\ take (order - 1) ngram = context)
  then last ngram else None.

(** The words counted after a context, one per n-gram, in the order
    training met them. *)
Definition followers (order : nat) (context : list token)
    (stream : list (list token)) : list token :=
  omap (follower order context) stream.

(** Position of the first occurrence ([length l] when there is none). *)
Fixpoint index_of (x : token) (l : list token) : nat :=
  match l with
  | [] => 0
  | y :: l' => if decide (x = y) then 0 else S (index_of x l')
  end.

(** When training first counted the word after the context. *)
Definition first_seen (tokenized_words : list (list token)) (order : nat)
    (context : list token) (word : token) : nat :=
  index_of word (followers order context (training_stream tokenized_words)).

(** [w1] ranks before [w2] among the followers of a context: a higher
    count, or the same count and seen first. *)
Definition ranks_before (tokenized_words : list (list token)) (order : nat)
    (context : list token) (w1 w2 : token) : Prop :=
  let c := count (fit_model tokenized_words) order context in
  let seen := first_seen tokenized_words order context in
  (c w2 < c w1)%nat \/ (c w1 = c w2 /\ (seen w1 < seen w2)%nat).

(** A dictionary's key list after a key is touched. *)
Definition add_key (seen : list token) (w : token) : list token :=
  if decide (w ∈ seen) then seen else seen ++ [w].

(** The order of items in a stable descending sort of [d]: a higher
    count, or the same count and earlier in [d]. *)
Definition item_before (d : list (token * nat)) (a b : token * nat) : Prop :=
  (b.2 < a.2)%nat \/
  (a.2 = b.2 /\ (index_of a.1 (Py.keys d) < index_of b.1 (Py.keys d))%nat).

(** ** The cap on the candidates *)

(** How many n-grams of a stream have the order and the context. *)
Definition context_hits (order : nat) (context : list token)
    (stream : list (list token)) : nat :=
  length (filter (fun ngram => length ngram = order
                               /\ take (order - 1) ngram = context) stream).

(** The last token of the context of an n-gram. *)
Definition context_last (ngram : list token) : option token :=
  last (take (length ngram - 1) ngram).

(** A sentence with at least one token and no sentinel among them. *)
Definition plain_sentence (sentence : list token) : Prop :=
  sentence <> [] /\ (LEFT_SENT_PAD ∉ sentence)
  /\ (RIGHT_SENT_PAD ∉ sentence).

(** A token that is neither sentinel. *)
Definition plain_token (w : token) : Prop :=
  w <> LEFT_SENT_PAD /\ w <> RIGHT_SENT_PAD.

(** * Further definitions *)

(** How often a token occurs in a list. *)
Definition occurrences (w : token) (l : list token) : nat :=
  length (filter (fun x => x = w) l).

(** [word] was met right after [context] in a training sentence: the
    padded sentence holds the context and then the word. *)
Definition follows (sentences : list (list token)) (context : list token)
    (word : token) : Prop :=
  exists sentence l1 l2,
    sentence ∈ sentences /\
    Spec.padded (length context + 1) sentence
    = l1 ++ context ++ [word] ++ l2.

(** Lines 134-137 of [generate_completions]: a last token that is not in
    the vocabulary is taken off the tokens and becomes the start string. *)
Definition split_stub (self : Autocompleter) (tokenized_words : list token)
  : string * list token :=
  match last tokenized_words with
  | None => ("", tokenized_words)
  | Some last_word =>
      if negb (in_vocabulary self last_word 50)
      then (last_word, take (length tokenized_words - 1) tokenized_words)
      else ("", tokenized_words)
  end.

(** The tokens [generate_completions] works on: the text after cleaning,
    spell correction, entity encoding and word tokenizing. *)
Definition prefix_tokens (util : TextPipeline) (prefix_string : string)
  : list token :=
  word_tokenize util
    (encode_entities util
       (spell_correction util (format_and_clean util prefix_string))).

(** What every stored count looks like: at least 1. *)
Definition positive_counts (fd : FreqDist) : Prop :=
  Forall (fun wc => (1 <= wc.2)%nat) fd.

(** The shape of a counter: the stored orders are 2 and 3, a context
    stored at order n has n-1 tokens, no stored distribution is empty and
    every stored count is at least 1. *)
Definition well_formed_counter (nc : NgramCounter) : Prop :=
  positive_counts (unigrams nc) /\
  Forall (fun oc =>
            (oc.1 = 2%nat \/ oc.1 = 3%nat) /\
            Forall (fun cf =>
                      length cf.1 = (oc.1 - 1)%nat /\ cf.2 <> []
                      /\ positive_counts cf.2)
                   oc.2)
         (_counts nc).

(** A world with one corpus file, for running [fit] to its end. *)
Definition sample_conversations : json :=
  JObj [("Issues",
         JArr [JObj [("CompanyGroupId", JNum 50001);
                     ("Messages",
                      JArr [JObj [("IsFromCustomer", JBool true);
                                  ("Text", JStr "hi")];
                            JObj [("IsFromCustomer", JBool false);
                                  ("Text", JStr "hello")]])]])].

Definition sample_world : World :=
  mkWorld
    (fun name => if decide (name = "corpus.json") then Contents "{...}"
                 else Missing)
    (fun _ => Some sample_conversations)
    (fun messages =>
       inr (omap (fun m => match m with JStr s => Some s | _ => None end)
                 messages)).

(** ** The conversation log as records

    What [get_operator_messages] reads of the log: issues with a company
    group id and messages, messages with a sender flag and a text. *)

Record Message := mkMessage {
  is_from_customer : bool;
  message_text : string
}.

Record Issue := mkIssue {
  company_group_id : Z;
  issue_messages : list Message
}.

(** The decoded JSON of a log. *)
Definition encode_message (m : Message) : json :=
  JObj [("IsFromCustomer", JBool (is_from_customer m));
        ("Text", JStr (message_text m))].

Definition encode_issue (i : Issue) : json :=
  JObj [("CompanyGroupId", JNum (company_group_id i));
        ("Messages", JArr (encode_message <$> issue_messages i))].

Definition encode_conversations (issues : list Issue) : json :=
  JObj [("Issues", JArr (encode_issue <$> issues))].

(** The issues a filter lets through. *)
Definition selected (company_group_id_filter : option (list Z)) (i : Issue)
  : bool :=
  match company_group_id_filter with
  | None => true
  | Some ids => bool_decide (company_group_id i ∈ ids)
  end.

(** The texts the operator wrote in one issue, in order. *)
Definition operator_texts_of (i : Issue) : list string :=
  message_text <$> List.filter (fun m => negb (is_from_customer m))
                               (issue_messages i).

(** The texts the operator wrote in the selected issues, in order. *)
Definition operator_texts (company_group_id_filter : option (list Z))
    (issues : list Issue) : list string :=
  concat (map operator_texts_of
              (List.filter (selected company_group_id_filter) issues)).

(** ** [format_and_clean]

    The three [re.sub] calls of [format_and_clean], on the bytes of the
    text: every character the patterns name is ASCII, so in UTF-8 they
    act on bytes as they act on characters.  [text.lower()] is taken as
    it comes. *)

Module Clean.

Import Stdlib.Strings.Ascii.

Definition lt : Ascii.ascii := "<"%char.
Definition gt : Ascii.ascii := ">"%char.
Definition newline : Ascii.ascii := "010"%char.
Definition space : Ascii.ascii := " "%char.
Definition dot : Ascii.ascii := "."%char.
Definition comma : Ascii.ascii := ","%char.
Definition quote : Ascii.ascii := "034"%char.

(** Can [.*?>] match here: does a [>] come before the end of the line?
    ([.] matches every character but the newline.) *)
Fixpoint closes (s : string) : bool :=
  match s with
  | EmptyString => false
  | String c s' =>
      if decide (c = gt) then true
      else if decide (c = newline) then false
      else closes s'
  end.

(** [re.sub('<.*?>', '', s)]: left to right, a [<] that can be closed on
    its line is dropped with everything up to the first [>] after it;
    [in_tag] says that the scan is inside such a match. *)
Fixpoint strip_tags (in_tag : bool) (s : string) : string :=
  match s with
  | EmptyString => EmptyString
  | String c s' =>
      if in_tag then
        if decide (c = gt) then strip_tags false s' else strip_tags true s'
      else if decide (c = lt) then
        if closes s' then strip_tags true s'
        else String c (strip_tags false s')
      else String c (strip_tags false s')
  end.

(** The characters of the class of the second pattern: dot, comma and
    double quote. *)
Definition is_punct (c : Ascii.ascii) : bool :=
  bool_decide (c = dot) || bool_decide (c = comma) || bool_decide (c = quote).

(** The second [re.sub]: the characters of the class are dropped. *)
Fixpoint strip_punct (s : string) : string :=
  match s with
  | EmptyString => EmptyString
  | String c s' =>
      if is_punct c then strip_punct s' else String c (strip_punct s')
  end.

(** [re.sub(' +', ' ', s)]: every run of spaces becomes one space;
    [after_space] says that the run has begun. *)
Fixpoint squeeze_spaces (after_space : bool) (s : string) : string :=
  match s with
  | EmptyString => EmptyString
  | String c s' =>
      if decide (c = space) then
        if after_space then squeeze_spaces true s'
        else String c (squeeze_spaces true s')
      else String c (squeeze_spaces false s')
  end.

(** [util.format_and_clean] *)
Definition format_and_clean (lower : string -> string) (text : string)
  : string :=
  let text := lower text in
  let text := strip_tags false text in
  let text := strip_punct text in
  let text := squeeze_spaces false text in
  text.

(** A [<] that is closed by a [>] on its line: a match of [<.*?>]. *)
Fixpoint has_tag (s : string) : bool :=
  match s with
  | EmptyString => false
  | String c s' => (bool_decide (c = lt) && closes s') || has_tag s'
  end.

(** Two spaces in a row. *)
Fixpoint has_double_space (s : string) : bool :=
  match s with
  | EmptyString => false
  | String c s' =>
      match s' with
      | EmptyString => false
      | String c' _ =>
          (bool_decide (c = space) && bool_decide (c' = space))
          || has_double_space s'
      end
  end.

(** The characters of a text. *)
Fixpoint chars (s : string) : list Ascii.ascii :=
  match s with
  | EmptyString => []
  | String c s' => c :: chars s'
  end.

End Clean.

(** ** The ranking of a context *)

(** [ranking] is the ranking of the words that follow [context] at
    [order]: it holds every word of the context's distribution once, by
    count in descending order and, for equal counts, in the order in
    which training first counted them. *)
Definition is_ranking (tokenized_words : list (list token)) (order : nat)
    (context : list token) (ranking : list token) : Prop :=
  ranking ≡ₚ Py.keys (distribution (fit_model tokenized_words) order context)
  /\ StronglySorted (ranks_before tokenized_words order context) ranking.

(** A corpus in which two words follow the context [a b] equally often. *)
Definition tie_corpus : list (list token) :=
  [ ["a"; "b"; "d"]; ["a"; "b"; "c"]; ["a"; "b"; "c"]; ["a"; "b"; "e"] ].

(** ** Logs of the wrong structure *)

(** A world with two files of the wrong structure: [log.json] decodes to
    an object whose [Issues] entry is an empty object instead of a list
    of issues, [list.json] to an empty list. *)
Definition malformed_conversations : json := JObj [("Issues", JObj [])].

Definition malformed_world : World :=
  mkWorld
    (fun name =>
       if decide (name = "log.json") then Contents "{...}"
       else if decide (name = "list.json") then Contents "[]"
       else Missing)
    (fun text =>
       if decide (text = "[]") then Some (JArr [])
       else Some malformed_conversations)
    (fun messages =>
       inr (omap (fun m => match m with JStr s => Some s | _ => None end)
                 messages)).

(** * Properties *)

(** ** The model on small inputs *)

Example ngrams_bigrams :
  ngrams ["a"; "b"] 2 true true LEFT_SENT_PAD RIGHT_SENT_PAD
  = [["<s>"; "a"]; ["a"; "b"]; ["b"; "</s>"]].
Proof. reflexivity. Qed.

Example ngrams_trigrams_of_empty_sentence :
  ngrams [] 3 true true LEFT_SENT_PAD RIGHT_SENT_PAD
  = [["<s>"; "<s>"; "</s>"]; ["<s>"; "</s>"; "</s>"]].
Proof. reflexivity. Qed.

Example ngrams_unigrams_unpadded :
  ngrams ["a"; "b"] 1 true true LEFT_SENT_PAD RIGHT_SENT_PAD = [["a"]; ["b"]].
Proof. reflexivity. Qed.

Example get_next_word_two_best :
  get_next_word (fitted corpus) ["can"; "i"] 2 "" = ["assist"; "help"]
  /\ get_next_word (fitted corpus) ["can"; "i"] 2 "he" = ["help"].
Proof. split; reflexivity. Qed.

Example get_next_word_tie_first_seen :
  get_next_word (fitted [["a"; "b"; "d"]; ["a"; "b"; "c"];
                         ["a"; "b"; "c"]; ["a"; "b"; "d"]])
                ["a"; "b"] 2 "" = ["d"; "c"].
Proof. reflexivity. Qed.

Example get_sentence_to_cap :
  get_sentence (fitted corpus) ["how"; "can"; "i"] 4
  = ["how"; "can"; "i"; "assist"].
Proof. reflexivity. Qed.

Example get_sentence_to_end :
  get_sentence (fitted corpus) ["how"; "can"; "i"] 12
  = ["how"; "can"; "i"; "assist"; "you"; "with"; "today"; "?"].
Proof. reflexivity. Qed.

Example get_operator_messages_of_operator :
  Util.get_operator_messages
    (JObj [("Issues",
            JArr [JObj [("CompanyGroupId", JNum 50001);
                        ("Messages",
                         JArr [JObj [("IsFromCustomer", JBool true);
                                     ("Text", JStr "hi")];
                               JObj [("IsFromCustomer", JBool false);
                                     ("Text", JStr "hello")]])]])])
    (Some [50001])
  = inr [JStr "hello"].
Proof. reflexivity. Qed.

Example get_operator_messages_malformed :
  Util.get_operator_messages (JObj []) None = inl (KeyError "Issues").
Proof. reflexivity. Qed.

(** ** Slices *)

Lemma slice_to_length {A} (n : Z) (l : list A) :
  0 <= n -> Z.of_nat (length (Py.slice_to n l)) <= n.
Proof.
  intros Hn. unfold Py.slice_to.
  destruct (Z.leb_spec 0 n); [|lia].
  rewrite length_take. lia.
Qed.

Lemma slice_to_all {A} (n : Z) (l : list A) :
  Z.of_nat (length l) <= n -> Py.slice_to n l = l.
Proof.
  intros Hn. unfold Py.slice_to.
  destruct (Z.leb_spec 0 n); [|lia].
  apply take_ge. lia.
Qed.

Lemma slice_to_full_length {A} (n : Z) (l : list A) :
  0 <= n <= Z.of_nat (length l) ->
  Z.of_nat (length (Py.slice_to n l)) = n.
Proof.
  intros Hn. unfold Py.slice_to.
  destruct (Z.leb_spec 0 n); [|lia].
  rewrite length_take. lia.
Qed.

Lemma slice_to_prefix {A} (n : Z) (l : list A) :
  Py.slice_to n l `prefix_of` l.
Proof.
  unfold Py.slice_to. destruct (0 <=? n); apply prefix_take.
Qed.

Lemma slice_to_one {A} (l : list A) :
  Py.slice_to 1 l = match l with [] => [] | x :: _ => [x] end.
Proof. unfold Py.slice_to; simpl. destruct l; reflexivity. Qed.

Lemma startswith_empty (word : string) : Py.startswith word "" = true.
Proof. by destruct word. Qed.

Lemma slice_last_app2 {A} (pre : list A) (x y : A) :
  Py.slice_last 2 (pre ++ [x; y]) = [x; y].
Proof.
  unfold Py.slice_last. rewrite length_app; simpl.
  replace (length pre + 2 - 2)%nat with (length pre) by lia.
  apply drop_app_length.
Qed.

(** ** Dictionaries *)

Section dict_facts.
Context {K V : Type} `{EqDecision K}.
Implicit Types (d : list (K * V)) (k : K).

Lemma get_update dflt (f : V -> V) k k' d :
  Py.get dflt k (Py.update dflt f k' d)
  = if decide (k = k') then f (Py.get dflt k d) else Py.get dflt k d.
Proof.
  induction d as [|[k0 v] d IH]; simpl.
  - destruct (decide (k = k')); reflexivity.
  - destruct (decide (k' = k0)) as [->|Hne]; simpl.
    + destruct (decide (k = k0)); reflexivity.
    + rewrite IH. destruct (decide (k = k0)) as [->|]; [|reflexivity].
      destruct (decide (k0 = k')); [congruence|reflexivity].
Qed.

Lemma keys_update_in dflt (f : V -> V) k d :
  k ∈ Py.keys d -> Py.keys (Py.update dflt f k d) = Py.keys d.
Proof.
  unfold Py.keys. induction d as [|[k0 v] d IH]; simpl; intros Hin.
  - by apply elem_of_nil in Hin.
  - destruct (decide (k = k0)) as [->|Hne]; simpl; [reflexivity|].
    apply elem_of_cons in Hin as [?|Hin]; [done|]. f_equal. by apply IH.
Qed.

Lemma keys_update_notin dflt (f : V -> V) k d :
  k ∉ Py.keys d -> Py.keys (Py.update dflt f k d) = Py.keys d ++ [k].
Proof.
  unfold Py.keys. induction d as [|[k0 v] d IH]; simpl; intros Hnin.
  - reflexivity.
  - apply not_elem_of_cons in Hnin as [Hne Hnin].
    destruct (decide (k = k0)); [done|]. simpl. f_equal. by apply IH.
Qed.

Lemma length_update dflt (f : V -> V) k d :
  (length (Py.update dflt f k d) <= S (length d))%nat.
Proof.
  induction d as [|[k0 v] d IH]; simpl; [lia|].
  destruct (decide (k = k0)); simpl; lia.
Qed.

Lemma get_elem_of dflt k v d :
  NoDup (Py.keys d) -> (k, v) ∈ d -> Py.get dflt k d = v.
Proof.
  unfold Py.keys. induction d as [|[k0 v0] d IH]; simpl; intros Hnd Hin.
  - by apply elem_of_nil in Hin.
  - apply NoDup_cons in Hnd as [Hk0 Hnd].
    apply elem_of_cons in Hin as [[= -> ->]|Hin].
    + by destruct (decide (k0 = k0)).
    + destruct (decide (k = k0)) as [->|]; [|by apply IH].
      exfalso. apply Hk0. apply list_elem_of_fmap. by exists (k0, v).
Qed.
End dict_facts.

(** ** The n-grams of a sentence are the windows of its padding *)

Lemma ngrams_fill_spec m history sequence :
  (m <= length sequence)%nat ->
  ngrams_fill (S m) history sequence
  = Some (history ++ take m sequence, drop m sequence).
Proof.
  revert history sequence.
  induction m as [|m IH]; intros history sequence Hm.
  - simpl. by rewrite take_0, app_nil_r, drop_0.
  - destruct sequence as [|x sequence]; [simpl in Hm; lia|].
    change (ngrams_fill (S (S m)) history (x :: sequence))
      with (ngrams_fill (S m) (history ++ [x]) sequence).
    rewrite IH by (simpl in Hm; lia).
    simpl. by rewrite <- app_assoc.
Qed.

Lemma windows_cons n x l :
  (S n <= S (length l))%nat ->
  Spec.windows (S n) (x :: l) = take (S n) (x :: l) :: Spec.windows (S n) l.
Proof.
  intros Hn. unfold Spec.windows.
  replace (length (x :: l) + 1 - S n)%nat with (S (length l + 1 - S n))
    by (simpl; lia).
  cbn [seq]. rewrite <- fmap_S_seq, fmap_cons, <- list_fmap_compose.
  reflexivity.
Qed.

Lemma windows_short n l :
  (length l < n)%nat -> Spec.windows n l = [].
Proof.
  intros Hn. unfold Spec.windows.
  by replace (length l + 1 - n)%nat with 0%nat by lia.
Qed.

Lemma ngrams_yield_windows history sequence :
  ngrams_yield history sequence
  = Spec.windows (S (length history)) (history ++ sequence).
Proof.
  revert history.
  induction sequence as [|x sequence IH]; intros history; simpl.
  - rewrite windows_short; [reflexivity|]. rewrite app_nil_r. lia.
  - rewrite IH. destruct history as [|a history].
    + simpl. rewrite windows_cons by (simpl; lia). reflexivity.
    + cbn [drop app length]. rewrite drop_0.
      rewrite windows_cons by (rewrite length_app; simpl; lia).
      rewrite length_app, <- app_assoc. cbn [length app].
      replace (length history + 1)%nat with (S (length history)) by lia.
      f_equal.
      change (a :: history ++ x :: sequence)
        with ((a :: history) ++ [x] ++ sequence).
      rewrite app_assoc. rewrite take_app_length'; [done|].
      rewrite length_app. simpl. lia.
Qed.

Lemma ngrams_windows sentence n :
  (1 <= n)%nat ->
  ngrams sentence n true true LEFT_SENT_PAD RIGHT_SENT_PAD
  = Spec.windows n (Spec.padded n sentence).
Proof.
  intros Hn. destruct n as [|m]; [lia|].
  unfold ngrams, pad_sequence. fold (Spec.padded (S m) sentence).
  assert (Hlen : (m <= length (Spec.padded (S m) sentence))%nat).
  { unfold Spec.padded. rewrite length_app, length_replicate. lia. }
  replace ((replicate (S m - 1) LEFT_SENT_PAD ++ sentence)
           ++ replicate (S m - 1) RIGHT_SENT_PAD)
    with (Spec.padded (S m) sentence)
    by (unfold Spec.padded; by rewrite app_assoc).
  rewrite ngrams_fill_spec by done. simpl.
  rewrite ngrams_yield_windows.
  rewrite length_take, take_drop. f_equal. lia.
Qed.

Lemma windows_length n l :
  Forall (fun window => length window = n) (Spec.windows n l).
Proof.
  unfold Spec.windows. apply Forall_fmap, Forall_forall.
  intros i Hi. apply elem_of_seq in Hi. simpl.
  rewrite length_take, length_drop. lia.
Qed.

Lemma ngrams_length sentence n :
  (1 <= n)%nat ->
  Forall (fun ngram => length ngram = n)
         (ngrams sentence n true true LEFT_SENT_PAD RIGHT_SENT_PAD).
Proof. intros Hn. rewrite ngrams_windows by done. apply windows_length. Qed.

(** ** What the n-grams add to the counts *)

Lemma count_update_ngram nc ngram order context word :
  count (update_ngram nc ngram) order context word
  = (count nc order context word
     + if decide (hit order context word ngram) then 1 else 0)%nat.
Proof.
  destruct (decide (hit order context word ngram)) as [Hhit|Hmiss].
  - destruct Hhit as (Hlen & Hctx & Hlast).
    unfold update_ngram, count, distribution, getitem_str, incr.
    rewrite Hlast, Hlen.
    destruct (decide (order = 1%nat)) as [->|Horder]; simpl.
    + simpl in Hctx. rewrite take_0 in Hctx. subst context.
      destruct (decide ([] = [])) as [_|?]; [|done].
      rewrite get_update. destruct (decide (word = word)); [|done].
      by rewrite Nat.add_1_r.
    + rewrite Hctx, get_update.
      destruct (decide (order = order)); [|done].
      rewrite get_update.
      destruct (decide (context = context)); [|done].
      rewrite get_update.
      destruct (decide (word = word)); [|done].
      by rewrite Nat.add_1_r.
  - rewrite Nat.add_0_r.
    unfold update_ngram, count, distribution, getitem_str, incr.
    destruct (last ngram) as [w0|] eqn:Hlast; [|reflexivity].
    destruct (decide (length ngram = 1%nat)) as [Hone|Hmore]; simpl.
    + destruct (decide (order = 1%nat)) as [->|Horder]; [|reflexivity].
      destruct (decide (context = [])) as [->|Hctx]; [|reflexivity].
      rewrite get_update.
      destruct (decide (word = w0)) as [->|Hw]; [|reflexivity].
      exfalso. apply Hmiss. unfold hit. done.
    + destruct (decide (order = 1%nat)) as [->|Horder]; [reflexivity|].
      rewrite get_update.
      destruct (decide (order = length ngram)) as [->|Hlen];
        [|reflexivity].
      rewrite get_update.
      destruct (decide (context = take (length ngram - 1) ngram))
        as [->|Hctx]; [|reflexivity].
      rewrite get_update.
      destruct (decide (word = w0)) as [->|Hw]; [|reflexivity].
      exfalso. apply Hmiss. unfold hit. done.
Qed.

Lemma count_foldl_update_ngram stream nc order context word :
  count (foldl update_ngram nc stream) order context word
  = (count nc order context word
     + length (filter (hit order context word) stream))%nat.
Proof.
  revert nc. induction stream as [|ngram stream IH]; intros nc; simpl.
  - lia.
  - rewrite IH, count_update_ngram, filter_cons.
    case_decide; simpl; lia.
Qed.

Lemma update_concat nc ngram_text :
  update nc ngram_text = foldl update_ngram nc (concat ngram_text).
Proof.
  unfold update. revert nc.
  induction ngram_text as [|sent ngram_text IH]; intros nc; simpl.
  - reflexivity.
  - by rewrite foldl_app, IH.
Qed.

(** The n-gram stream of one order over the corpus. *)
Lemma hits_in_stream k order context word tokenized_words :
  (1 <= k)%nat ->
  length (filter (hit order context word)
            (concat (map (fun sentence =>
                       ngrams sentence k true true
                              LEFT_SENT_PAD RIGHT_SENT_PAD)
                     tokenized_words)))
  = if decide (k = order)
    then Spec.count tokenized_words order context word
    else 0%nat.
Proof.
  intros Hk. unfold Spec.count.
  induction tokenized_words as [|sentence tokenized_words IH]; simpl.
  - by destruct (decide (k = order)).
  - rewrite filter_app, length_app, IH. clear IH.
    pose proof (ngrams_length sentence k Hk) as Hlen.
    rewrite ngrams_windows in * by done.
    destruct (decide (k = order)) as [->|Hne].
    + f_equal. unfold Spec.increments.
      induction (Spec.windows order (Spec.padded order sentence))
        as [|window ws IHws]; [reflexivity|].
      apply Forall_cons in Hlen as [Hw Hws].
      rewrite !filter_cons. unfold hit at 1.
      destruct (decide (length window = order
                        /\ take (order - 1) window = context
                        /\ last window = Some word)) as [Hhit|Hmiss];
        case_decide as Hspec; simpl; rewrite ?IHws by done; try done.
      * exfalso. apply Hspec. tauto.
      * exfalso. apply Hmiss. tauto.
    + rewrite Nat.add_0_r.
      induction (Spec.windows k (Spec.padded k sentence))
        as [|window ws IHws]; [reflexivity|].
      apply Forall_cons in Hlen as [Hw Hws].
      rewrite filter_cons. case_decide as Hhit; [|by apply IHws].
      exfalso. destruct Hhit as (? & _ & _). congruence.
Qed.

Lemma count_empty_counter order context word :
  count empty_counter order context word = 0%nat.
Proof.
  unfold count, distribution, getitem_str. simpl.
  destruct (decide (order = 1%nat)); [|reflexivity].
  by destruct (decide (context = [])).
Qed.

Lemma count_fit_model tokenized_words order context word :
  count (fit_model tokenized_words) order context word
  = ((if decide (3%nat = order)
      then Spec.count tokenized_words order context word else 0)
     + (if decide (2%nat = order)
        then Spec.count tokenized_words order context word else 0)
     + (if decide (1%nat = order)
        then Spec.count tokenized_words order context word else 0))%nat.
Proof.
  unfold fit_model, new_counter.
  rewrite update_concat, !concat_app, count_foldl_update_ngram.
  rewrite count_empty_counter, !filter_app, !length_app.
  rewrite !hits_in_stream by lia. lia.
Qed.

(** C4: after [fit], for each order n in 1, 2, 3 the count stored for
    (context, word) is the number of times the windows of width n, slid
    over the sentences padded with n-1 START sentinels on the left and n-1
    END sentinels on the right, have the context as their first n-1
    tokens and the word as their last. *)
Theorem fit_counts_are_window_counts tokenized_words context word :
  count (fit_model tokenized_words) 1 context word
    = Spec.count tokenized_words 1 context word /\
  count (fit_model tokenized_words) 2 context word
    = Spec.count tokenized_words 2 context word /\
  count (fit_model tokenized_words) 3 context word
    = Spec.count tokenized_words 3 context word.
Proof.
  rewrite !count_fit_model.
  repeat split; repeat case_decide; try lia; congruence.
Qed.

(** ** Insertion order of a distribution *)

Lemma fit_model_stream tokenized_words :
  fit_model tokenized_words
  = foldl update_ngram empty_counter (training_stream tokenized_words).
Proof. unfold fit_model, new_counter. by rewrite update_concat. Qed.

Lemma keys_incr word (fd : FreqDist) :
  Py.keys (incr word fd) = add_key (Py.keys fd) word.
Proof.
  unfold incr, add_key. case_decide.
  - by apply keys_update_in.
  - by apply keys_update_notin.
Qed.

Lemma keys_distribution_update_ngram nc ngram order context :
  order <> 1%nat ->
  Py.keys (distribution (update_ngram nc ngram) order context)
  = match follower order context ngram with
    | Some w => add_key (Py.keys (distribution nc order context)) w
    | None => Py.keys (distribution nc order context)
    end.
Proof.
  intros Horder. unfold follower, update_ngram, distribution.
  destruct (decide (length ngram = order
                    /\ take (order - 1) ngram = context)) as [[Hlen Hctx]|Hmiss].
  - destruct (last ngram) as [w|]; [|reflexivity].
    destruct (decide (length ngram = 1%nat)); [congruence|]. simpl.
    rewrite Hlen, Hctx, get_update.
    destruct (decide (order = order)); [|done].
    rewrite get_update.
    destruct (decide (context = context)); [|done].
    apply keys_incr.
  - destruct (last ngram) as [w|]; simpl.
    2:{ by destruct (last ngram). }
    assert (Hsame :
      Py.keys (Py.get [] context
        (Py.get [] order
           (_counts (if decide (length ngram = 1%nat)
                     then mkNgramCounter (incr w (unigrams nc)) (_counts nc)
                     else mkNgramCounter (unigrams nc)
                            (Py.update []
                               (Py.update [] (incr w)
                                  (take (length ngram - 1) ngram))
                               (length ngram) (_counts nc))))))
      = Py.keys (Py.get [] context (Py.get [] order (_counts nc)))).
    { destruct (decide (length ngram = 1%nat)); [reflexivity|]. simpl.
      rewrite get_update.
      destruct (decide (order = length ngram)) as [->|]; [|reflexivity].
      rewrite get_update.
      destruct (decide (context = take (length ngram - 1) ngram))
        as [->|]; [|reflexivity].
      exfalso. by apply Hmiss. }
    rewrite Hsame. by destruct (last ngram).
Qed.

Lemma keys_distribution_foldl stream nc order context :
  order <> 1%nat ->
  Py.keys (distribution (foldl update_ngram nc stream) order context)
  = foldl add_key (Py.keys (distribution nc order context))
          (followers order context stream).
Proof.
  intros Horder. revert nc.
  induction stream as [|ngram stream IH]; intros nc; simpl; [reflexivity|].
  rewrite IH, keys_distribution_update_ngram by done.
  unfold followers. simpl.
  by destruct (follower order context ngram).
Qed.

Lemma index_of_lt x l : x ∈ l -> (index_of x l < length l)%nat.
Proof.
  induction l as [|y l IH]; simpl; intros Hin.
  - by apply elem_of_nil in Hin.
  - destruct (decide (x = y)); [lia|].
    apply elem_of_cons in Hin as [?|Hin]; [done|].
    specialize (IH Hin). lia.
Qed.

Lemma index_of_app_l x l k :
  x ∈ l -> index_of x (l ++ k) = index_of x l.
Proof.
  induction l as [|y l IH]; simpl; intros Hin.
  - by apply elem_of_nil in Hin.
  - destruct (decide (x = y)); [reflexivity|].
    apply elem_of_cons in Hin as [?|Hin]; [done|]. by rewrite IH.
Qed.

Lemma index_of_app_r x l k :
  x ∉ l -> index_of x (l ++ k) = (length l + index_of x k)%nat.
Proof.
  induction l as [|y l IH]; simpl; intros Hnin; [reflexivity|].
  apply not_elem_of_cons in Hnin as [Hne Hnin].
  destruct (decide (x = y)); [done|]. by rewrite IH.
Qed.

Lemma elem_of_foldl_add_key l seen x :
  x ∈ foldl add_key seen l <-> x ∈ seen \/ x ∈ l.
Proof.
  revert seen. induction l as [|y l IH]; intros seen; simpl.
  - rewrite elem_of_nil. tauto.
  - rewrite IH, elem_of_cons. unfold add_key. case_decide as Hy.
    + split; [tauto|]. intros [?|[->|?]]; tauto.
    + rewrite elem_of_app, list_elem_of_singleton. tauto.
Qed.

Lemma NoDup_foldl_add_key l seen :
  NoDup seen -> NoDup (foldl add_key seen l).
Proof.
  revert seen. induction l as [|y l IH]; intros seen Hnd; simpl; [done|].
  apply IH. unfold add_key. case_decide as Hy; [done|].
  apply NoDup_app. split; [done|]. split.
  - intros x Hx ->%list_elem_of_singleton. done.
  - apply NoDup_singleton.
Qed.

(** Keys stand in the order of their first occurrence. *)
Lemma foldl_add_key_order l seen a b :
  a ∈ foldl add_key seen l -> b ∈ foldl add_key seen l ->
  (index_of a (foldl add_key seen l) < index_of b (foldl add_key seen l)
   <-> index_of a (seen ++ l) < index_of b (seen ++ l))%nat.
Proof.
  revert seen. induction l as [|y l IH]; intros seen Ha Hb; simpl in *.
  - by rewrite app_nil_r.
  - rewrite IH by done. unfold add_key. case_decide as Hy.
    + assert (Hidx : forall x, x ∈ foldl add_key (add_key seen y) l ->
        ((x ∈ seen) /\ index_of x (seen ++ l) = index_of x seen
                  /\ index_of x (seen ++ y :: l) = index_of x seen
                  /\ (index_of x seen < length seen)%nat)
        \/ ((x ∉ seen) /\ index_of x (seen ++ l)
                        = (length seen + index_of x l)%nat
                     /\ index_of x (seen ++ y :: l)
                        = (length seen + S (index_of x l))%nat)).
      { intros x _. destruct (decide (x ∈ seen)) as [Hx|Hx].
        - left. rewrite !index_of_app_l by done.
          split; [done|]. split; [done|]. split; [done|].
          by apply index_of_lt.
        - right. rewrite !index_of_app_r by done. simpl.
          destruct (decide (x = y)) as [->|]; done. }
      destruct (Hidx a Ha) as [(_ & -> & -> & ?)|(_ & -> & ->)];
        destruct (Hidx b Hb) as [(_ & -> & -> & ?)|(_ & -> & ->)]; lia.
    + by rewrite <- app_assoc.
Qed.

(** ** The stable descending sort *)

Lemma elem_of_insert_desc x l y :
  y ∈ insert_desc x l <-> y = x \/ y ∈ l.
Proof.
  induction l as [|z l IH]; simpl.
  - rewrite list_elem_of_singleton, elem_of_nil. tauto.
  - destruct (x.2 <? z.2)%nat.
    + rewrite !elem_of_cons, IH. tauto.
    + rewrite !elem_of_cons. tauto.
Qed.

Lemma elem_of_sorted_desc d y : y ∈ sorted_desc d <-> y ∈ d.
Proof.
  induction d as [|x d IH]; simpl; [done|].
  rewrite elem_of_insert_desc, elem_of_cons, IH. tauto.
Qed.

Lemma length_insert_desc x l : length (insert_desc x l) = S (length l).
Proof.
  induction l as [|z l IH]; simpl; [done|].
  destruct (x.2 <? z.2)%nat; simpl; by rewrite ?IH.
Qed.

Lemma length_sorted_desc d : length (sorted_desc d) = length d.
Proof.
  induction d as [|x d IH]; simpl; [done|].
  by rewrite length_insert_desc, IH.
Qed.

Lemma StronglySorted_weaken {A} (R R' : A -> A -> Prop) l :
  (forall a b, a ∈ l -> b ∈ l -> R a b -> R' a b) ->
  StronglySorted R l -> StronglySorted R' l.
Proof.
  induction l as [|x l IH]; intros Himp Hs; [constructor|].
  apply StronglySorted_cons in Hs as [Hx Hs].
  apply StronglySorted_cons. split.
  - rewrite Forall_forall in *. intros y Hy.
    apply Himp; [left|by right|by apply Hx].
  - apply IH; [|done]. intros a b Ha Hb. apply Himp; by right.
Qed.

Lemma StronglySorted_sublist {A} (R : A -> A -> Prop) l k :
  k `sublist_of` l -> StronglySorted R l -> StronglySorted R k.
Proof.
  induction 1 as [|x k l Hsub IH|x k l Hsub IH]; intros Hs.
  - constructor.
  - apply StronglySorted_cons in Hs as [Hx Hs].
    apply StronglySorted_cons. split; [|by apply IH].
    rewrite Forall_forall in *. intros y Hy. apply Hx.
    by eapply sublist_subseteq.
  - apply StronglySorted_cons in Hs as [_ Hs]. by apply IH.
Qed.

Lemma StronglySorted_fmap {A B} (R : A -> A -> Prop) (R' : B -> B -> Prop)
    (f : A -> B) l :
  (forall a b, a ∈ l -> b ∈ l -> R a b -> R' (f a) (f b)) ->
  StronglySorted R l -> StronglySorted R' (f <$> l).
Proof.
  induction l as [|x l IH]; intros Himp Hs; [constructor|].
  apply StronglySorted_cons in Hs as [Hx Hs].
  rewrite fmap_cons. apply StronglySorted_cons. split.
  - rewrite Forall_forall in Hx. apply Forall_forall. intros y Hy.
    apply list_elem_of_fmap in Hy as [y' [-> Hy']].
    apply Himp; [left|by right|by apply Hx].
  - apply IH; [|done]. intros a b Ha Hb. apply Himp; by right.
Qed.

Lemma insert_desc_sorted (R : token * nat -> token * nat -> Prop) x l :
  (forall e, e ∈ l -> (x.2 < e.2)%nat -> R e x) ->
  (forall e, e ∈ l -> (e.2 <= x.2)%nat -> R x e) ->
  (forall a b, a ∈ l -> b ∈ l -> R a b -> (b.2 <= a.2)%nat) ->
  StronglySorted R l -> StronglySorted R (insert_desc x l).
Proof.
  intros Hhigh Hlow Hmono.
  induction l as [|y l IH]; intros Hs; simpl.
  - repeat constructor.
  - apply StronglySorted_cons in Hs as [Hy Hs].
    rewrite Forall_forall in Hy.
    destruct (Nat.ltb_spec x.2 y.2) as [Hlt|Hge].
    + apply StronglySorted_cons. split.
      * apply Forall_forall. intros e [->|He]%elem_of_insert_desc.
        -- apply Hhigh; [left|done].
        -- by apply Hy.
      * apply IH; [| | |done].
        -- intros e He. apply Hhigh. by right.
        -- intros e He. apply Hlow. by right.
        -- intros a b Ha Hb. apply Hmono; by right.
    + apply StronglySorted_cons. split.
      * apply Forall_forall. intros e [->|He]%elem_of_cons.
        -- apply Hlow; [left|done].
        -- apply Hlow; [by right|].
           pose proof (Hmono y e ltac:(left) ltac:(by right) (Hy e He)).
           lia.
      * apply StronglySorted_cons. split; [by apply Forall_forall|done].
Qed.

Lemma sorted_desc_stable d :
  NoDup (Py.keys d) -> StronglySorted (item_before d) (sorted_desc d).
Proof.
  induction d as [|x d IH]; intros Hnd; simpl; [constructor|].
  unfold Py.keys in Hnd. rewrite fmap_cons in Hnd.
  apply NoDup_cons in Hnd as [Hx Hnd].
  assert (Hkey : forall e, e ∈ sorted_desc d -> e.1 <> x.1).
  { intros e He Heq. rewrite elem_of_sorted_desc in He. apply Hx.
    rewrite <- Heq. apply list_elem_of_fmap. exists e. split; done. }
  apply insert_desc_sorted.
  - intros e He Hlt. by left.
  - intros e He Hle. unfold item_before, Py.keys. rewrite fmap_cons. simpl.
    destruct (decide (x.1 = x.1)); [|done].
    destruct (decide (e.1 = x.1)) as [Heq|_]; [by apply Hkey in Heq|].
    lia.
  - intros a b _ _ [?|[? _]]; lia.
  - eapply StronglySorted_weaken; [|by apply IH].
    intros a b Ha Hb. unfold item_before, Py.keys. rewrite fmap_cons. simpl.
    destruct (decide (a.1 = x.1)) as [Heq|_]; [by apply Hkey in Heq|].
    destruct (decide (b.1 = x.1)) as [Heq|_]; [by apply Hkey in Heq|].
    intros [?|[? ?]]; [by left|right]. split; [done|lia].
Qed.

Lemma sublist_List_filter {A} (f : A -> bool) l :
  List.filter f l `sublist_of` l.
Proof.
  induction l as [|x l IH]; simpl; [constructor|].
  destruct (f x); by constructor.
Qed.

(** ** The candidates of a query *)

Lemma get_next_word_unfold nc prefix_string top_n start_string :
  prefix_string <> [] ->
  get_next_word (mkAutocompleter (Some nc)) prefix_string top_n start_string =
  Py.slice_to top_n
    (matching_words nc (length (Py.slice_last 2 prefix_string) + 1)
                    (Py.slice_last 2 prefix_string) start_string).
Proof.
  intros Hne. unfold get_next_word; simpl.
  destruct prefix_string as [|x p]; [done|]. reflexivity.
Qed.

Lemma matching_words_startswith nc order context start_string :
  Forall (fun word => Py.startswith word start_string = true)
         (matching_words nc order context start_string).
Proof.
  unfold matching_words. apply Forall_forall. intros w Hw.
  apply list_elem_of_fmap in Hw as [[w' c] [-> Hin]].
  apply list_elem_of_In, filter_In in Hin. tauto.
Qed.

Lemma get_next_word_top1 self prefix_string start_string :
  (length (get_next_word self prefix_string 1 start_string) <= 1)%nat.
Proof.
  pose proof (slice_to_length 1
    (match self with
     | mkAutocompleter (Some nc) =>
         matching_words nc (length (Py.slice_last 2 prefix_string) + 1)
                        (Py.slice_last 2 prefix_string) start_string
     | _ => []
     end) ltac:(lia)) as H.
  destruct self as [[nc|]]; [|simpl; lia].
  destruct prefix_string as [|x p]; [simpl; lia|].
  rewrite get_next_word_unfold by done. lia.
Qed.

(** ** The growth loop *)

Lemma get_sentence_loop_length self iterations sentence :
  (length (get_sentence_loop self iterations sentence)
   <= length sentence + iterations)%nat.
Proof.
  revert sentence. induction iterations as [|n IH]; intros s; simpl; [lia|].
  destruct (get_next_word self s 1 "") as [|w ws]; [lia|].
  destruct (decide (w = RIGHT_SENT_PAD)); [lia|].
  specialize (IH (s ++ [w])). rewrite length_app in IH. simpl in IH. lia.
Qed.

Lemma get_sentence_loop_no_end self iterations sentence :
  RIGHT_SENT_PAD ∉ sentence ->
  RIGHT_SENT_PAD ∉ get_sentence_loop self iterations sentence.
Proof.
  revert sentence. induction iterations as [|n IH]; intros s Hs; simpl; [done|].
  destruct (get_next_word self s 1 "") as [|w ws]; [done|].
  destruct (decide (w = RIGHT_SENT_PAD)) as [|Hw]; [done|].
  apply IH. rewrite elem_of_app, list_elem_of_singleton.
  intros [?|?]; [done|]. by apply Hw.
Qed.

Lemma get_sentence_loop_stop self iterations sentence :
  let r := get_sentence_loop self iterations sentence in
  (length r < length sentence + iterations)%nat ->
  get_next_word self r 1 "" = [] \/
  get_next_word self r 1 "" = [RIGHT_SENT_PAD].
Proof.
  revert sentence. induction iterations as [|n IH]; intros s; simpl; [lia|].
  pose proof (get_next_word_top1 self s "") as Hone.
  destruct (get_next_word self s 1 "") as [|w ws] eqn:Hw; [by left|].
  destruct (decide (w = RIGHT_SENT_PAD)) as [->|Hne].
  - intros _. right. rewrite Hw. destruct ws; [done|simpl in Hone; lia].
  - intros Hlt. apply IH. rewrite length_app; simpl. lia.
Qed.

(** ** Which distribution a query reads *)

(** C1, as stated, fails: on a one-token prefix the context tuple has one
    element, the counter is read at order 2, and the bigram followers come
    back ([test_get_next_word] expects exactly that for ["how"]). *)
Lemma get_next_word_one_token_counterexample :
  (length ["how"] < 2)%nat /\
  get_next_word (fitted corpus) ["how"] 4 "" = ["can"; "to"] /\
  get_next_word (fitted corpus) ["how"] 4 "" <> [].
Proof. vm_compute. split; [lia|]. split; [reflexivity|discriminate]. Qed.

(** C1, amended: on a fitted model, a prefix of two or more tokens is
    answered from the order-3 distribution of its last two tokens, a
    one-token prefix from the order-2 distribution of that token, and the
    empty prefix with the empty list. *)
Theorem get_next_word_context tokenized_words pre x y top_n start_string :
  get_next_word (fitted tokenized_words) (pre ++ [x; y]) top_n start_string
  = Py.slice_to top_n
      (matching_words (fit_model tokenized_words) 3 [x; y] start_string)
  /\ get_next_word (fitted tokenized_words) [x] top_n start_string
     = Py.slice_to top_n
         (matching_words (fit_model tokenized_words) 2 [x] start_string)
  /\ get_next_word (fitted tokenized_words) [] top_n start_string = [].
Proof.
  unfold fitted. split; [|split].
  - rewrite get_next_word_unfold by (by destruct pre).
    by rewrite slice_last_app2.
  - by rewrite get_next_word_unfold.
  - reflexivity.
Qed.

(** ** Length of a grown sentence *)

(** C2, as stated, fails: a prefix that is already longer than the cap
    comes back as it is ([test_get_sentence] expects the three tokens). *)
Lemma get_sentence_long_prefix_counterexample :
  get_sentence (fitted corpus) ["what"; "is"; "your"] 2
    = ["what"; "is"; "your"] /\
  ~ (Z.of_nat (length (get_sentence (fitted corpus) ["what"; "is"; "your"] 2))
     <= 2).
Proof. vm_compute. split; [reflexivity|]. intros H. by apply H. Qed.

(** C2, amended: the sentence returned by [get_sentence] is no longer
    than the larger of [max_sentence_length] and the length of the prefix;
    so it is at most [max_sentence_length] long whenever the prefix is. *)
Theorem get_sentence_length self prefix_string max_sentence_length :
  Z.of_nat (length (get_sentence self prefix_string max_sentence_length))
  <= Z.max (Z.of_nat (length prefix_string)) max_sentence_length.
Proof.
  unfold get_sentence. destruct (ngram_counter self); [|simpl; lia].
  destruct (Z.leb_spec max_sentence_length (Z.of_nat (length prefix_string)));
    simpl; [lia|].
  destruct (length prefix_string =? 0)%nat; [lia|].
  pose proof (get_sentence_loop_length self
    (Z.to_nat (max_sentence_length - Z.of_nat (length prefix_string)))
    prefix_string).
  lia.
Qed.

(** ** Why growth stops *)

(** C6: when the prefix holds no end-of-sentence sentinel, the sentence
    returned by [get_sentence] holds none either, and when it is shorter
    than [max_sentence_length] the next-word query on it finds nothing or
    finds the sentinel. *)
Theorem get_sentence_stop self prefix_string max_sentence_length :
  RIGHT_SENT_PAD ∉ prefix_string ->
  let r := get_sentence self prefix_string max_sentence_length in
  (RIGHT_SENT_PAD ∉ r) /\
  (Z.of_nat (length r) < max_sentence_length ->
   get_next_word self r 1 "" = [] \/
   get_next_word self r 1 "" = [RIGHT_SENT_PAD]).
Proof.
  intros Hp. unfold get_sentence.
  destruct (ngram_counter self) as [nc|] eqn:Hnc; simpl.
  2:{ split; [apply not_elem_of_nil|]. intros _. left.
      unfold get_next_word. by rewrite Hnc. }
  destruct (Z.leb_spec max_sentence_length (Z.of_nat (length prefix_string)));
    simpl.
  { split; [done|lia]. }
  destruct (Nat.eqb_spec (length prefix_string) 0) as [H0|H0].
  { split; [done|]. intros _. left.
    destruct prefix_string; [|done]. unfold get_next_word. by rewrite Hnc. }
  split; [by apply get_sentence_loop_no_end|].
  intros Hlt. apply get_sentence_loop_stop. simpl. lia.
Qed.

Lemma get_sentence_stop_witness :
  (RIGHT_SENT_PAD ∉ ["how"; "can"]) /\
  (RIGHT_SENT_PAD ∉ get_sentence (fitted corpus) ["how"; "can"] 8) /\
  (Z.of_nat (length (get_sentence (fitted corpus) ["how"; "can"] 8)) < 8 ->
   get_next_word (fitted corpus)
     (get_sentence (fitted corpus) ["how"; "can"] 8) 1 "" = [] \/
   get_next_word (fitted corpus)
     (get_sentence (fitted corpus) ["how"; "can"] 8) 1 ""
     = [RIGHT_SENT_PAD]).
Proof.
  assert (H : RIGHT_SENT_PAD ∉ ["how"; "can"]).
  { compute_done. }
  split; [exact H|].
  exact (get_sentence_stop (fitted corpus) ["how"; "can"] 8 H).
Defined.

(** ** How many words come back *)

(** Outside the counts a caller would ask for: with a negative [top_n]
    the slice [[:-1]] drops the last match and keeps the others. *)
Lemma get_next_word_negative_top_n :
  get_next_word (fitted corpus) ["can"; "i"] (-1) "" = ["assist"].
Proof. vm_compute. reflexivity. Qed.

(** ** The untrained object *)

(** C8: on an object that was never fitted ([ngram_counter] is [None]),
    [generate_completions], [get_next_word] and [get_sentence] return the
    empty list for every input. *)
Theorem untrained_queries_empty util prefix_text prefix_tokens
    max_sentence_length max_num_of_sentences top_n start_string :
  generate_completions util init prefix_text max_sentence_length
                       max_num_of_sentences = [] /\
  get_next_word init prefix_tokens top_n start_string = [] /\
  get_sentence init prefix_tokens max_sentence_length = [].
Proof. repeat split. Qed.

(** ** A failed [fit] *)

Lemma fit_unfold w util json_filename company_group_id_filter self :
  fit w util json_filename company_group_id_filter self
  = match open_read w json_filename with
    | inl e => (inl e, self)
    | inr text =>
        match json_load w text with
        | inl e => (inl e, self)
        | inr conversations =>
            match Util.get_operator_messages conversations
                    company_group_id_filter with
            | inl e => (inl e, self)
            | inr operator_messages =>
                match sentence_tokenize w operator_messages with
                | inl e => (inl e, self)
                | inr tokenized_sentences =>
                    (inr tt,
                     fitted
                       (map (word_tokenize util)
                          (map (encode_entities util)
                             (map (spell_correction util)
                                (map (format_and_clean util)
                                     tokenized_sentences)))))
                end
            end
        end
    end.
Proof.
  unfold fit, mbind, Method_bind, mret, Method_ret, call, set_ngram_counter.
  destruct (open_read w json_filename); [reflexivity|].
  destruct (json_load w s); [reflexivity|].
  destruct (Util.get_operator_messages j company_group_id_filter);
    [reflexivity|].
  destruct (sentence_tokenize w l); reflexivity.
Qed.

(** A [fit] that goes through replaces the model by the counter of the
    tokenized corpus. *)
Lemma fit_success w util json_filename company_group_id_filter self self' :
  fit w util json_filename company_group_id_filter self = (inr tt, self') ->
  exists tokenized_words, self' = fitted tokenized_words.
Proof.
  rewrite fit_unfold.
  destruct (open_read w json_filename); [discriminate|].
  destruct (json_load w s); [discriminate|].
  destruct (Util.get_operator_messages j company_group_id_filter);
    [discriminate|].
  destruct (sentence_tokenize w l); [discriminate|].
  intros [= <-]. eauto.
Qed.

(** ** The caller's list objects *)

#[local] Opaque alloc.

Lemma alloc_spec (h : gmap loc (list token)) (xs : list token) :
  exists l, alloc h xs = (l, <[l := xs]> h) /\ h !! l = None.
Proof.
  exists (fresh (dom h)). split; [reflexivity|].
  apply not_elem_of_dom, is_fresh.
Qed.

Lemma alloc_extends (h : gmap loc (list token)) (xs : list token) l :
  h !! l = None -> h ⊆ <[l := xs]> h.
Proof. intros. by apply insert_subseteq. Qed.

Lemma get_next_word_ref_spec self (h : gmap loc (list token)) p xs
    top_n start_string :
  h !! p = Some xs ->
  exists r h',
    get_next_word_ref self h p top_n start_string = Some (r, h') /\
    h ⊆ h' /\
    h' !! r = Some (get_next_word self xs top_n start_string).
Proof.
  intros Hp. unfold get_next_word_ref, get_next_word.
  destruct (ngram_counter self) as [nc|].
  2:{ destruct (alloc_spec h []) as (l & -> & Hl).
      exists l, (<[l := []]> h). split; [done|].
      split; [by apply alloc_extends|]. by rewrite lookup_insert_eq. }
  rewrite Hp; simpl.
  destruct (length xs <? 1)%nat.
  { destruct (alloc_spec h []) as (l & -> & Hl).
    exists l, (<[l := []]> h). split; [done|].
    split; [by apply alloc_extends|]. by rewrite lookup_insert_eq. }
  destruct (alloc_spec h xs) as (c & -> & Hc).
  rewrite lookup_insert_eq; simpl.
  match goal with
  | |- context [alloc ?h1 ?ys] =>
      destruct (alloc_spec h1 ys) as (l & -> & Hl)
  end.
  eexists _, _. split; [reflexivity|]. split.
  - etrans; [by apply alloc_extends|]. by apply alloc_extends.
  - by rewrite lookup_insert_eq.
Qed.

Lemma get_sentence_loop_ref_spec self iterations
    (h : gmap loc (list token)) s xs :
  h !! s = Some xs ->
  exists h',
    get_sentence_loop_ref self iterations h s = Some (s, h') /\
    h' !! s = Some (get_sentence_loop self iterations xs) /\
    (forall l v, l <> s -> h !! l = Some v -> h' !! l = Some v).
Proof.
  revert h xs. induction iterations as [|n IH]; intros h xs Hs; simpl.
  { exists h. done. }
  destruct (get_next_word_ref_spec self h s xs 1 "" Hs)
    as (w & h1 & -> & Hsub & Hw); simpl.
  rewrite Hw; simpl.
  assert (Hs1 : h1 !! s = Some xs) by (eapply lookup_weaken; eauto).
  assert (Hkeep : forall l v, h !! l = Some v -> h1 !! l = Some v).
  { intros l v Hl. eapply lookup_weaken; eauto. }
  destruct (get_next_word self xs 1 "") as [|word0 ws].
  { exists h1. eauto. }
  destruct (decide (word0 = RIGHT_SENT_PAD)).
  { exists h1. eauto. }
  rewrite Hs1; simpl.
  destruct (IH (<[s := xs ++ [word0]]> h1) (xs ++ [word0]))
    as (h' & -> & Hres & Hframe); [by rewrite lookup_insert_eq|].
  exists h'. split; [done|]. split; [done|].
  intros l v Hne Hl. apply Hframe; [done|].
  rewrite lookup_insert_ne by done. by apply Hkeep.
Qed.

Lemma get_sentence_ref_spec self (h : gmap loc (list token)) p xs
    max_sentence_length :
  h !! p = Some xs ->
  exists r h',
    get_sentence_ref self h p max_sentence_length = Some (r, h') /\
    h ⊆ h' /\
    h' !! r = Some (get_sentence self xs max_sentence_length).
Proof.
  intros Hp. unfold get_sentence_ref, get_sentence.
  destruct (ngram_counter self) as [nc|].
  2:{ destruct (alloc_spec h []) as (l & -> & Hl).
      exists l, (<[l := []]> h). split; [done|].
      split; [by apply alloc_extends|]. by rewrite lookup_insert_eq. }
  rewrite Hp; simpl.
  destruct ((max_sentence_length <=? Z.of_nat (length xs))
            || (length xs =? 0)%nat).
  { exists p, h. done. }
  destruct (alloc_spec h xs) as (c & -> & Hc).
  destruct (get_sentence_loop_ref_spec self
              (Z.to_nat (max_sentence_length - Z.of_nat (length xs)))
              (<[c := xs]> h) c xs) as (h' & -> & Hres & Hframe);
    [by rewrite lookup_insert_eq|].
  exists c, h'. split; [done|]. split; [|done].
  apply map_subseteq_spec. intros l v Hl.
  apply Hframe; [congruence|].
  rewrite lookup_insert_ne by congruence. done.
Qed.

(** C10: [get_next_word] and [get_sentence] leave the caller's list as it
    was.  Run on list objects, each call ends with every object of the
    caller's store, the argument among them, holding the elements it held
    before (what is appended goes to the copy), and returns an object
    holding the result of the call. *)
Theorem queries_keep_argument self (h : gmap loc (list token))
    (prefix_string : loc) (xs : list token) top_n start_string
    max_sentence_length :
  h !! prefix_string = Some xs ->
  (exists r h',
     get_next_word_ref self h prefix_string top_n start_string
       = Some (r, h') /\
     h' !! prefix_string = Some xs /\ h ⊆ h' /\
     h' !! r = Some (get_next_word self xs top_n start_string)) /\
  (exists r h',
     get_sentence_ref self h prefix_string max_sentence_length
       = Some (r, h') /\
     h' !! prefix_string = Some xs /\ h ⊆ h' /\
     h' !! r = Some (get_sentence self xs max_sentence_length)).
Proof.
  intros Hp. split.
  - destruct (get_next_word_ref_spec self h prefix_string xs top_n
                start_string Hp) as (r & h' & Hrun & Hsub & Hr).
    exists r, h'. repeat split; try done. by eapply lookup_weaken.
  - destruct (get_sentence_ref_spec self h prefix_string xs
                max_sentence_length Hp) as (r & h' & Hrun & Hsub & Hr).
    exists r, h'. repeat split; try done. by eapply lookup_weaken.
Qed.

Lemma queries_keep_argument_witness :
  caller_store !! 1%positive = Some ["how"; "can"] /\
  exists r h',
    get_sentence_ref (fitted corpus) caller_store 1%positive 8
      = Some (r, h') /\
    h' !! 1%positive = Some ["how"; "can"] /\ caller_store ⊆ h' /\
    h' !! r = Some (get_sentence (fitted corpus) ["how"; "can"] 8).
Proof.
  assert (H : caller_store !! 1%positive = Some ["how"; "can"])
    by reflexivity.
  split; [exact H|].
  exact (proj2 (queries_keep_argument (fitted corpus) caller_store 1%positive
                  ["how"; "can"] 1 "" 8 H)).
Defined.

(** ** Ranking *)

Lemma slice_to_sublist {A} (n : Z) (l : list A) :
  Py.slice_to n l `sublist_of` l.
Proof. unfold Py.slice_to. destruct (0 <=? n); apply sublist_take. Qed.

Lemma keys_distribution_fit_model tokenized_words order context :
  order <> 1%nat ->
  Py.keys (distribution (fit_model tokenized_words) order context)
  = foldl add_key []
      (followers order context (training_stream tokenized_words)).
Proof.
  intros Horder. rewrite fit_model_stream.
  rewrite keys_distribution_foldl by done. reflexivity.
Qed.

Lemma NoDup_keys_distribution tokenized_words order context :
  order <> 1%nat ->
  NoDup (Py.keys (distribution (fit_model tokenized_words) order context)).
Proof.
  intros Horder. rewrite keys_distribution_fit_model by done.
  apply NoDup_foldl_add_key, NoDup_nil_2.
Qed.

Lemma matching_words_sublist nc order context start_string :
  matching_words nc order context start_string
  `sublist_of` (sorted_desc (distribution nc order context)).*1.
Proof.
  unfold matching_words, most_common. apply fmap_sublist.
  etrans; [apply sublist_List_filter|apply sublist_take].
Qed.

Lemma sorted_desc_ranked tokenized_words order context :
  order <> 1%nat ->
  StronglySorted (ranks_before tokenized_words order context)
    (sorted_desc (distribution (fit_model tokenized_words) order context)).*1.
Proof.
  intros Horder.
  pose proof (NoDup_keys_distribution tokenized_words order context Horder)
    as Hnd.
  eapply StronglySorted_fmap; [|by apply sorted_desc_stable].
  intros a b Ha Hb Hab. rewrite elem_of_sorted_desc in Ha, Hb.
  assert (Hcount : forall e,
    e ∈ distribution (fit_model tokenized_words) order context ->
    count (fit_model tokenized_words) order context e.1 = e.2).
  { intros [w c] He. unfold count.
    destruct (decide (order = 1%nat)); [done|]. by apply get_elem_of. }
  assert (Hkeys : forall e,
    e ∈ distribution (fit_model tokenized_words) order context ->
    e.1 ∈ foldl add_key []
            (followers order context (training_stream tokenized_words))).
  { intros e He. rewrite <- keys_distribution_fit_model by done.
    apply list_elem_of_fmap. by exists e. }
  unfold ranks_before, first_seen. simpl.
  rewrite !Hcount by done.
  destruct Hab as [Hlt|[Heq Hidx]]; [by left|right]. split; [done|].
  rewrite keys_distribution_fit_model in Hidx by done.
  pose proof (foldl_add_key_order
    (followers order context (training_stream tokenized_words)) []
    a.1 b.1 (Hkeys a Ha) (Hkeys b Hb)) as Hord.
  simpl in Hord. by apply Hord.
Qed.

(** ** The size of a distribution and the unigram total *)

Lemma N_incr word (fd : FreqDist) : N (incr word fd) = S (N fd).
Proof.
  unfold N, incr. induction fd as [|[w c] fd IH]; simpl; [done|].
  destruct (decide (word = w)); simpl; [done|].
  rewrite <- Nat.add_succ_r. f_equal. exact IH.
Qed.

Lemma N_update_ngram nc ngram :
  N (unigrams (update_ngram nc ngram))
  = (N (unigrams nc) + if decide (length ngram = 1%nat) then 1 else 0)%nat.
Proof.
  unfold update_ngram. destruct (last ngram) as [w|] eqn:Hlast.
  - destruct (decide (length ngram = 1%nat)); simpl; [|lia].
    rewrite N_incr. lia.
  - apply last_None in Hlast as ->. simpl. lia.
Qed.

Lemma N_foldl_update_ngram stream nc :
  N (unigrams (foldl update_ngram nc stream))
  = (N (unigrams nc)
     + length (filter (fun ngram => length ngram = 1%nat) stream))%nat.
Proof.
  revert nc. induction stream as [|ngram stream IH]; intros nc; simpl.
  - lia.
  - rewrite IH, N_update_ngram, filter_cons.
    destruct (decide (length ngram = 1%nat)); simpl; lia.
Qed.

Lemma filter_length_eq (k n : nat) (l : list (list token)) :
  Forall (fun ngram => length ngram = k) l ->
  filter (fun ngram => length ngram = n) l = if decide (k = n) then l else [].
Proof.
  induction l as [|g l IH]; intros Hl.
  - by destruct (decide (k = n)).
  - apply Forall_cons in Hl as [Hg Hl]. rewrite filter_cons, IH by done.
    destruct (decide (length g = n)), (decide (k = n)); congruence.
Qed.

Lemma filter_length_stream (k n : nat) tokenized_words :
  (1 <= k)%nat ->
  length (filter (fun ngram => length ngram = n)
            (concat (map (fun sentence =>
                       ngrams sentence k true true
                              LEFT_SENT_PAD RIGHT_SENT_PAD)
                     tokenized_words)))
  = if decide (k = n)
    then sum_list ((fun sentence =>
                      length (ngrams sentence k true true
                                LEFT_SENT_PAD RIGHT_SENT_PAD))
                   <$> tokenized_words)
    else 0%nat.
Proof.
  intros Hk.
  induction tokenized_words as [|sentence tokenized_words IH]; simpl.
  - by destruct (decide (k = n)).
  - rewrite filter_app, length_app, IH.
    rewrite (filter_length_eq k n) by by apply ngrams_length.
    destruct (decide (k = n)); reflexivity.
Qed.

Lemma length_unigrams sentence :
  length (ngrams sentence 1 true true LEFT_SENT_PAD RIGHT_SENT_PAD)
  = length sentence.
Proof.
  rewrite ngrams_windows by lia.
  unfold Spec.windows, Spec.padded. simpl.
  rewrite length_fmap, length_seq, app_nil_r. lia.
Qed.

(** [N()] of the unigrams is the number of tokens of the corpus. *)
Lemma N_fit_model tokenized_words :
  N (unigrams (fit_model tokenized_words))
  = sum_list (length <$> tokenized_words).
Proof.
  rewrite fit_model_stream, N_foldl_update_ngram. simpl.
  unfold training_stream. rewrite !concat_app, !filter_app, !length_app.
  rewrite !filter_length_stream by lia.
  destruct (decide (3%nat = 1%nat)); [done|].
  destruct (decide (2%nat = 1%nat)); [done|].
  destruct (decide (1%nat = 1%nat)); [|done]. simpl.
  f_equal. apply list_fmap_ext.
  intros i s _. apply length_unigrams.
Qed.

Lemma length_foldl_add_key l seen :
  (length (foldl add_key seen l) <= length seen + length l)%nat.
Proof.
  revert seen. induction l as [|y l IH]; intros seen; simpl; [lia|].
  etrans; [apply IH|]. unfold add_key. case_decide; [lia|].
  rewrite length_app. simpl. lia.
Qed.

Lemma length_followers order context stream :
  (length (followers order context stream)
   <= context_hits order context stream)%nat.
Proof.
  unfold followers, context_hits, follower.
  induction stream as [|g stream IH]; simpl; [done|].
  rewrite filter_cons.
  destruct (decide (length g = order /\ take (order - 1) g = context)).
  - destruct (last g); simpl.
    + apply le_n_S. exact IH.
    + etrans; [exact IH|]. apply Nat.le_succ_diag_r.
  - exact IH.
Qed.

Lemma length_distribution_fit_model tokenized_words order context :
  order <> 1%nat ->
  (length (distribution (fit_model tokenized_words) order context)
   <= context_hits order context (training_stream tokenized_words))%nat.
Proof.
  intros Horder.
  rewrite <- (length_fmap fst).
  change (fst <$> distribution (fit_model tokenized_words) order context)
    with (Py.keys (distribution (fit_model tokenized_words) order context)).
  rewrite keys_distribution_fit_model by done.
  etrans; [apply length_foldl_add_key|]. simpl. apply length_followers.
Qed.

Lemma ngrams_as_yield sentence m :
  ngrams sentence (S (S m)) true true LEFT_SENT_PAD RIGHT_SENT_PAD
  = ngrams_yield (replicate (S m) LEFT_SENT_PAD)
                 (sentence ++ replicate (S m) RIGHT_SENT_PAD).
Proof.
  unfold ngrams, pad_sequence.
  replace (S (S m) - 1)%nat with (S m) by lia.
  rewrite ngrams_fill_spec.
  2:{ rewrite !length_app, length_replicate. lia. }
  rewrite <- app_assoc.
  rewrite take_app_length' by (by rewrite length_replicate).
  rewrite drop_app_length' by (by rewrite length_replicate).
  reflexivity.
Qed.

Lemma ngrams_yield_context_last history sequence b :
  last history = Some b ->
  context_last <$> ngrams_yield history sequence
  = Some <$> take (length sequence) (b :: sequence).
Proof.
  revert history b.
  induction sequence as [|x sequence IH]; intros history b Hlast; simpl.
  - reflexivity.
  - f_equal.
    + unfold context_last. rewrite length_app. simpl.
      replace (length history + 1 - 1)%nat with (length history) by lia.
      by rewrite take_app_length.
    + apply IH. destruct history as [|a history]; [done|].
      simpl. rewrite drop_0. apply last_snoc.
Qed.

Lemma context_hits_context_last order context stream :
  (context_hits order context stream
   <= length (filter (fun o => o = last context) (context_last <$> stream)))%nat.
Proof.
  unfold context_hits.
  induction stream as [|g stream IH]; [done|].
  rewrite fmap_cons, !filter_cons.
  destruct (decide (length g = order /\ take (order - 1) g = context))
    as [[Hlen Hctx]|_].
  - destruct (decide (context_last g = last context)) as [_|Hne].
    + simpl. apply le_n_S, IH.
    + exfalso. apply Hne. unfold context_last. by rewrite Hlen, Hctx.
  - destruct (decide (context_last g = last context)); simpl; [|exact IH].
    etrans; [exact IH|]. apply Nat.le_succ_diag_r.
Qed.

Lemma filter_Some_fmap (o : option token) (y : token) (l : list token) :
  o = Some y ->
  length (filter (fun o' => o' = o) (Some <$> l))
  = length (filter (fun x => x = y) l).
Proof.
  intros Ho. induction l as [|x l IH]; [done|].
  rewrite fmap_cons, !filter_cons.
  destruct (decide (x = y)) as [Heq|Hne'];
    destruct (decide (Some x = o)) as [Heq'|Hne];
    simpl; congruence.
Qed.

Lemma filter_None_fmap (o : option token) (l : list token) :
  o = None -> filter (fun o' => o' = o) (Some <$> l) = [].
Proof.
  intros Ho. induction l as [|x l IH]; [done|].
  rewrite fmap_cons, filter_cons.
  destruct (decide (Some x = o)); [congruence|done].
Qed.

Lemma filter_eq_not_elem_of (y : token) (l : list token) :
  y ∉ l -> filter (fun x => x = y) l = [].
Proof.
  induction l as [|x l IH]; intros Hnin; [done|].
  apply not_elem_of_cons in Hnin as [Hne Hnin].
  rewrite filter_cons. destruct (decide (x = y)); [done|]. by apply IH.
Qed.

(** Among the context-closing tokens of a sentence, START, the tokens and
    one END, a token occurs at most [length sentence] times when it is no
    sentinel or the sentence is plain. *)
Lemma context_token_bound (o : option token) sentence :
  (exists y, o = Some y /\ plain_token y) \/ plain_sentence sentence ->
  (length (filter (fun o' => o' = o)
             (Some <$> LEFT_SENT_PAD :: sentence ++ [RIGHT_SENT_PAD]))
   <= length sentence)%nat.
Proof.
  intros Hyp. destruct o as [y|] eqn:Ho.
  2:{ rewrite filter_None_fmap by done. simpl. lia. }
  rewrite (filter_Some_fmap _ y) by done.
  pose proof (length_filter (fun x => x = y) sentence) as Hle.
  assert (Hsplit :
    length (filter (fun x => x = y)
              (LEFT_SENT_PAD :: sentence ++ [RIGHT_SENT_PAD]))
    = ((if decide (LEFT_SENT_PAD = y) then 1 else 0)
       + length (filter (fun x => x = y) sentence)
       + (if decide (RIGHT_SENT_PAD = y) then 1 else 0))%nat).
  { rewrite filter_cons.
    destruct (decide (LEFT_SENT_PAD = y)); simpl;
      rewrite filter_app, length_app, filter_cons;
      destruct (decide (RIGHT_SENT_PAD = y)); simpl; lia. }
  rewrite Hsplit. clear Hsplit.
  assert (Hpads : LEFT_SENT_PAD <> RIGHT_SENT_PAD) by done.
  destruct Hyp as [(y' & [= <-] & [HL HR])|(Hne & HLs & HRs)].
  - destruct (decide (LEFT_SENT_PAD = y)); [done|].
    destruct (decide (RIGHT_SENT_PAD = y)); [done|]. lia.
  - assert (Hlen : (1 <= length sentence)%nat).
    { destruct sentence; [done|]. simpl. lia. }
    destruct (decide (LEFT_SENT_PAD = y)) as [HL|HL];
      destruct (decide (RIGHT_SENT_PAD = y)) as [HR|HR];
      [congruence| | |lia].
    + subst y. rewrite (filter_eq_not_elem_of _ _ HLs). simpl. lia.
    + subst y. rewrite (filter_eq_not_elem_of _ _ HRs). simpl. lia.
Qed.

Lemma context_hits_sentence m context sentence :
  (m <= 1)%nat ->
  (exists y, last context = Some y /\ plain_token y)
  \/ plain_sentence sentence ->
  (context_hits (S (S m)) context
     (ngrams sentence (S (S m)) true true LEFT_SENT_PAD RIGHT_SENT_PAD)
   <= length sentence)%nat.
Proof.
  intros Hm Hyp.
  etrans; [apply context_hits_context_last|].
  etrans; [|by apply (context_token_bound (last context) sentence)].
  rewrite ngrams_as_yield.
  destruct m as [|[|m]]; [| |lia];
    rewrite (ngrams_yield_context_last _ _ LEFT_SENT_PAD) by reflexivity;
    rewrite length_app; simpl.
  - replace (length sentence + 1)%nat with (S (length sentence)) by lia.
    rewrite firstn_cons, take_app_length.
    rewrite !fmap_cons, !fmap_app, !filter_cons, !filter_app.
    destruct (decide (Some LEFT_SENT_PAD = last context)); simpl;
      rewrite !length_app; lia.
  - replace (length sentence + 2)%nat
      with (S (length (sentence ++ [RIGHT_SENT_PAD])))
      by (rewrite length_app; simpl; lia).
    rewrite firstn_cons.
    change (sentence ++ [RIGHT_SENT_PAD; RIGHT_SENT_PAD])
      with (sentence ++ [RIGHT_SENT_PAD] ++ [RIGHT_SENT_PAD]).
    rewrite app_assoc, take_app_length. done.
Qed.

Lemma context_hits_app order context l k :
  context_hits order context (l ++ k)
  = (context_hits order context l + context_hits order context k)%nat.
Proof. unfold context_hits. by rewrite filter_app, length_app. Qed.

Lemma context_hits_wrong_order k order context l :
  Forall (fun ngram => length ngram = k) l -> k <> order ->
  context_hits order context l = 0%nat.
Proof.
  intros Hl Hne. unfold context_hits.
  induction l as [|g l IH]; [done|].
  apply Forall_cons in Hl as [Hg Hl]. rewrite filter_cons.
  destruct (decide (length g = order /\ take (order - 1) g = context))
    as [[? _]|_]; [congruence|by apply IH].
Qed.

Lemma context_hits_stream k m context tokenized_words :
  (1 <= k)%nat -> (m <= 1)%nat ->
  (exists y, last context = Some y /\ plain_token y)
  \/ Forall plain_sentence tokenized_words ->
  (context_hits (S (S m)) context
     (concat (map (fun sentence =>
                ngrams sentence k true true LEFT_SENT_PAD RIGHT_SENT_PAD)
              tokenized_words))
   <= if decide (k = S (S m)) then sum_list (length <$> tokenized_words)
      else 0)%nat.
Proof.
  intros Hk Hm Hyp.
  induction tokenized_words as [|sentence tokenized_words IH].
  - simpl. by destruct (decide (k = S (S m))).
  - assert (Hrest : (exists y, last context = Some y /\ plain_token y)
                    \/ Forall plain_sentence tokenized_words).
    { destruct Hyp as [?|Hall]; [by left|right].
      by apply Forall_cons in Hall as [_ ?]. }
    assert (Hhere : (exists y, last context = Some y /\ plain_token y)
                    \/ plain_sentence sentence).
    { destruct Hyp as [?|Hall]; [by left|right].
      by apply Forall_cons in Hall as [? _]. }
    specialize (IH Hrest). simpl.
    rewrite context_hits_app.
    destruct (decide (k = S (S m))) as [->|Hne].
    + apply Nat.add_le_mono; [|exact IH].
      by apply context_hits_sentence.
    + rewrite (context_hits_wrong_order k) by (by try apply ngrams_length).
      exact IH.
Qed.

(** The cap [N()] is no smaller than a distribution of order 2 or 3. *)
Lemma distribution_within_cap tokenized_words m context :
  (m <= 1)%nat ->
  (exists y, last context = Some y /\ plain_token y)
  \/ Forall plain_sentence tokenized_words ->
  (length (distribution (fit_model tokenized_words) (S (S m)) context)
   <= N (unigrams (fit_model tokenized_words)))%nat.
Proof.
  intros Hm Hyp.
  etrans; [by apply length_distribution_fit_model|].
  rewrite N_fit_model. unfold training_stream.
  rewrite !concat_app, !context_hits_app.
  pose proof (context_hits_stream 3 m context tokenized_words
                ltac:(lia) Hm Hyp) as H3.
  pose proof (context_hits_stream 2 m context tokenized_words
                ltac:(lia) Hm Hyp) as H2.
  pose proof (context_hits_stream 1 m context tokenized_words
                ltac:(lia) Hm Hyp) as H1.
  destruct m as [|[|m]]; [| |lia].
  - destruct (decide (3%nat = 2%nat)); [done|].
    destruct (decide (2%nat = 2%nat)); [|done].
    destruct (decide (1%nat = 2%nat)); [done|]. lia.
  - destruct (decide (3%nat = 3%nat)); [|done].
    destruct (decide (2%nat = 3%nat)); [done|].
    destruct (decide (1%nat = 3%nat)); [done|]. lia.
Qed.

Lemma insert_desc_perm x l : insert_desc x l ≡ₚ x :: l.
Proof.
  induction l as [|y l IH]; simpl; [done|].
  destruct (x.2 <? y.2)%nat; [|done].
  rewrite IH. apply Permutation_swap.
Qed.

Lemma sorted_desc_perm d : sorted_desc d ≡ₚ d.
Proof.
  induction d as [|x d IH]; simpl; [done|].
  by rewrite insert_desc_perm, IH.
Qed.

Lemma filter_startswith_empty (l : list (token * nat)) :
  List.filter (fun wf => Py.startswith wf.1 "") l = l.
Proof.
  induction l as [|x l IH]; simpl; [done|].
  by rewrite startswith_empty, IH.
Qed.

Lemma slice_last_2_cases {A} (p : list A) :
  p <> [] ->
  (exists x, p = [x] /\ Py.slice_last 2 p = [x])
  \/ (exists pre x y, p = pre ++ [x; y] /\ Py.slice_last 2 p = [x; y]).
Proof.
  intros Hne. destruct p as [|a [|b q]]; [done|left; by exists a|right].
  set (p := a :: b :: q).
  assert (Hlen : (2 <= length p)%nat) by (simpl; lia).
  pose proof (take_drop (length p - 2) p) as Hsplit.
  pose proof (length_drop p (length p - 2)) as Hdrop.
  destruct (drop (length p - 2) p) as [|x [|y [|z t]]] eqn:Htail;
    simpl in Hdrop; try lia.
  exists (take (length p - 2) p), x, y. split; [done|].
  unfold Py.slice_last. exact Htail.
Qed.

(** C5, the code at the failing input: END is counted after a context
    but never as a unigram, so after training on the sentences [a] and
    the empty one both START START and START are followed by two words
    while [N()] is 1; [most_common(N())] then keeps one of the two, and
    a call with [top_n = 2] returns one word of the two stored. *)
Lemma cap_drops_candidate :
  Py.keys (distribution (fit_model [["a"]; []]) 3 ["<s>"; "<s>"])
    = ["a"; "</s>"] /\
  Py.keys (distribution (fit_model [["a"]; []]) 2 ["<s>"])
    = ["a"; "</s>"] /\
  N (unigrams (fit_model [["a"]; []])) = 1%nat /\
  get_next_word (fitted [["a"]; []]) ["<s>"; "<s>"] 2 "" = ["a"] /\
  get_next_word (fitted [["a"]; []]) ["<s>"] 2 "" = ["a"] /\
  ("</s>" ∉ get_next_word (fitted [["a"]; []]) ["<s>"; "<s>"] 2 "").
Proof.
  split; [reflexivity|]. split; [reflexivity|]. split; [reflexivity|].
  split; [reflexivity|]. split; [reflexivity|].
  compute_done.
Qed.

(** X24: when the last token of the prefix is no sentinel, or no
    training sentence is empty or holds a sentinel, the distribution of
    the context of a non-empty prefix has at most [N()] words; then a
    call with [top_n] at least the size of the distribution returns
    every word of the distribution that starts with [start_string], and
    with the empty [start_string] exactly the words of the
    distribution. *)
Theorem cap_keeps_candidates tokenized_words prefix_string top_n
    start_string :
  prefix_string <> [] ->
  (exists y, last prefix_string = Some y /\ plain_token y)
  \/ Forall plain_sentence tokenized_words ->
  let context := Py.slice_last 2 prefix_string in
  let dist :=
    distribution (fit_model tokenized_words) (length context + 1) context in
  Z.of_nat (length dist) <= top_n ->
  (length dist <= N (unigrams (fit_model tokenized_words)))%nat /\
  (forall word,
     word ∈ Py.keys dist -> Py.startswith word start_string = true ->
     word ∈ get_next_word (fitted tokenized_words) prefix_string top_n
              start_string) /\
  get_next_word (fitted tokenized_words) prefix_string top_n ""
    ≡ₚ Py.keys dist.
Proof.
  intros Hne Hyp context dist Htop.
  assert (Hctx : exists m, (m <= 1)%nat /\ (length context + 1 = S (S m))%nat
                           /\ last context = last prefix_string).
  { unfold context.
    destruct (slice_last_2_cases prefix_string Hne)
      as [(x & -> & ->)|(pre & x & y & -> & ->)].
    - exists 0%nat. split; [lia|]. split; reflexivity.
    - exists 1%nat. split; [lia|]. split; [reflexivity|].
      by rewrite last_app. }
  destruct Hctx as (m & Hm & Horder & Hlast).
  assert (Hcap : (length dist <= N (unigrams (fit_model tokenized_words)))%nat).
  { unfold dist. rewrite Horder.
    apply distribution_within_cap; [done|]. by rewrite Hlast. }
  assert (Hall : forall start,
    get_next_word (fitted tokenized_words) prefix_string top_n start
    = (List.filter (fun wf => Py.startswith wf.1 start) (sorted_desc dist)).*1).
  { intros start. unfold fitted. rewrite get_next_word_unfold by done.
    fold context. unfold matching_words, most_common. fold dist.
    rewrite take_ge by (by rewrite length_sorted_desc).
    apply slice_to_all. rewrite length_fmap.
    pose proof (sublist_length _ _
      (sublist_List_filter (fun wf => Py.startswith wf.1 start)
                           (sorted_desc dist))) as Hlen.
    rewrite length_sorted_desc in Hlen. lia. }
  split; [exact Hcap|]. split.
  - intros word Hword Hstart. rewrite Hall.
    apply list_elem_of_fmap in Hword as [[w c] [-> Hin]].
    apply list_elem_of_fmap. exists (w, c). split; [done|].
    apply list_elem_of_In, filter_In. split; [|exact Hstart].
    apply list_elem_of_In. by rewrite elem_of_sorted_desc.
  - rewrite Hall, filter_startswith_empty. unfold Py.keys.
    by rewrite sorted_desc_perm.
Qed.

Lemma cap_keeps_candidates_witness :
  ["can"; "i"] <> [] /\
  ((exists y, last ["can"; "i"] = Some y /\ plain_token y)
   \/ Forall plain_sentence corpus) /\
  get_next_word (fitted corpus) ["can"; "i"] 5 ""
    ≡ₚ Py.keys (distribution (fit_model corpus) 3 ["can"; "i"]).
Proof.
  assert (H1 : ["can"; "i"] <> ([] : list token)) by discriminate.
  assert (H2 : (exists y, last ["can"; "i"] = Some y /\ plain_token y)
               \/ Forall plain_sentence corpus).
  { left. exists "i". split; [reflexivity|]. split; discriminate. }
  split; [exact H1|]. split; [exact H2|].
  exact (proj2 (proj2 (cap_keeps_candidates corpus ["can"; "i"] 5 ""
                         H1 H2 ltac:(vm_compute; discriminate)))).
Defined.

(** * Further properties of the engine *)

(** ** Growing a sentence *)

Lemma get_sentence_loop_extends self iterations sentence :
  sentence `prefix_of` get_sentence_loop self iterations sentence.
Proof.
  revert sentence. induction iterations as [|n IH]; intros s; simpl; [done|].
  destruct (get_next_word self s 1 "") as [|w ws]; [done|].
  destruct (decide (w = RIGHT_SENT_PAD)); [done|].
  etrans; [|apply IH]. by apply prefix_app_r.
Qed.

Lemma get_sentence_loop_mono self n n' sentence :
  (n <= n')%nat ->
  get_sentence_loop self n sentence
  `prefix_of` get_sentence_loop self n' sentence.
Proof.
  revert n' sentence. induction n as [|n IH]; intros n' s Hle.
  - apply get_sentence_loop_extends.
  - destruct n' as [|n']; [lia|]. simpl.
    destruct (get_next_word self s 1 "") as [|w ws]; [done|].
    destruct (decide (w = RIGHT_SENT_PAD)); [done|].
    apply IH. lia.
Qed.

Lemma get_sentence_loop_again self n n' sentence :
  (length (get_sentence_loop self n sentence) < length sentence + n)%nat ->
  get_sentence_loop self n' (get_sentence_loop self n sentence)
  = get_sentence_loop self n sentence.
Proof.
  intros Hlt. destruct n' as [|n']; [done|]. simpl.
  destruct (get_sentence_loop_stop self n sentence Hlt) as [-> | ->];
    [done|].
  by destruct (decide (RIGHT_SENT_PAD = RIGHT_SENT_PAD)).
Qed.

(** X1: on a fitted object the sentence [get_sentence] returns starts
    with the prefix it was given: words are only ever appended. *)
Theorem get_sentence_extends_prefix nc prefix_string max_sentence_length :
  prefix_string
  `prefix_of` get_sentence (mkAutocompleter (Some nc)) prefix_string
                           max_sentence_length.
Proof.
  unfold get_sentence. simpl.
  destruct ((max_sentence_length <=? Z.of_nat (length prefix_string))
            || (length prefix_string =? 0)%nat); [done|].
  apply get_sentence_loop_extends.
Qed.

(** X2: [get_sentence] is idempotent: growing a grown sentence again
    under the same cap changes nothing, whatever the object's state. *)
Theorem get_sentence_idempotent self prefix_string max_sentence_length :
  get_sentence self (get_sentence self prefix_string max_sentence_length)
               max_sentence_length
  = get_sentence self prefix_string max_sentence_length.
Proof.
  unfold get_sentence.
  destruct (ngram_counter self) as [nc|]; [|reflexivity].
  destruct ((max_sentence_length <=? Z.of_nat (length prefix_string))
            || (length prefix_string =? 0)%nat) eqn:Hguard.
  { by rewrite Hguard. }
  apply orb_false_iff in Hguard as [Hcap Hlen].
  apply Z.leb_gt in Hcap. apply Nat.eqb_neq in Hlen.
  set (n := Z.to_nat (max_sentence_length - Z.of_nat (length prefix_string))).
  set (r := get_sentence_loop self n prefix_string).
  pose proof (get_sentence_loop_length self n prefix_string) as Hup.
  fold r in Hup.
  destruct ((max_sentence_length <=? Z.of_nat (length r))
            || (length r =? 0)%nat) eqn:Hguard'; [done|].
  apply orb_false_iff in Hguard' as [Hcap' _]. apply Z.leb_gt in Hcap'.
  apply get_sentence_loop_again. fold r. lia.
Qed.

(** X3: raising the cap only extends the result: for
    [max_sentence_length <= max_sentence_length'] the sentence grown under
    the smaller cap is a prefix of the one grown under the larger. *)
Theorem get_sentence_cap_monotone self prefix_string max_sentence_length
    max_sentence_length' :
  max_sentence_length <= max_sentence_length' ->
  get_sentence self prefix_string max_sentence_length
  `prefix_of` get_sentence self prefix_string max_sentence_length'.
Proof.
  intros Hle. unfold get_sentence.
  destruct (ngram_counter self) as [nc|]; [|done].
  destruct (Nat.eqb_spec (length prefix_string) 0) as [H0|H0].
  { by rewrite !orb_true_r. }
  rewrite !orb_false_r.
  destruct (Z.leb_spec max_sentence_length (Z.of_nat (length prefix_string)));
    destruct (Z.leb_spec max_sentence_length'
                         (Z.of_nat (length prefix_string)));
    try done; try lia.
  - apply get_sentence_loop_extends.
  - apply get_sentence_loop_mono. lia.
Qed.

Lemma get_sentence_cap_monotone_witness :
  4 <= 9 /\
  get_sentence (fitted corpus) ["how"; "can"; "i"] 4
  `prefix_of` get_sentence (fitted corpus) ["how"; "can"; "i"] 9.
Proof.
  assert (H : 4 <= 9) by lia.
  split; [exact H|].
  exact (get_sentence_cap_monotone (fitted corpus) ["how"; "can"; "i"] 4 9 H).
Defined.

(** ** The candidates *)

(** X4: a larger [top_n] only adds candidates at the end: for
    [0 <= top_n <= top_n'] the list for [top_n] is a prefix of the list
    for [top_n']. *)
Theorem get_next_word_top_n_monotone self prefix_string top_n top_n'
    start_string :
  0 <= top_n <= top_n' ->
  get_next_word self prefix_string top_n start_string
  `prefix_of` get_next_word self prefix_string top_n' start_string.
Proof.
  intros Hn. destruct self as [[nc|]]; [|done].
  destruct prefix_string as [|x p]; [done|].
  rewrite !get_next_word_unfold by done.
  unfold Py.slice_to.
  destruct (Z.leb_spec 0 top_n); [|lia].
  destruct (Z.leb_spec 0 top_n'); [|lia].
  set (l := matching_words _ _ _ _).
  replace (Z.to_nat top_n) with (Z.to_nat top_n `min` Z.to_nat top_n')%nat
    by lia.
  rewrite <- take_take. apply prefix_take.
Qed.

Lemma get_next_word_top_n_monotone_witness :
  0 <= 1 <= 2 /\
  get_next_word (fitted corpus) ["can"; "i"] 1 ""
  `prefix_of` get_next_word (fitted corpus) ["can"; "i"] 2 "".
Proof.
  assert (H : 0 <= 1 <= 2) by lia.
  split; [exact H|].
  exact (get_next_word_top_n_monotone (fitted corpus) ["can"; "i"] 1 2 "" H).
Defined.

Lemma context_order (prefix_string : list token) :
  prefix_string <> [] ->
  (length (Py.slice_last 2 prefix_string) + 1)%nat <> 1%nat.
Proof.
  intros Hne.
  destruct (slice_last_2_cases prefix_string Hne)
    as [(x & _ & ->)|(pre & x & y & _ & ->)]; simpl; lia.
Qed.

Lemma get_next_word_sublist tokenized_words prefix_string top_n
    start_string :
  prefix_string <> [] ->
  get_next_word (fitted tokenized_words) prefix_string top_n start_string
  `sublist_of`
  (sorted_desc
     (distribution (fit_model tokenized_words)
        (length (Py.slice_last 2 prefix_string) + 1)
        (Py.slice_last 2 prefix_string))).*1.
Proof.
  intros Hne. unfold fitted. rewrite get_next_word_unfold by done.
  etrans; [apply slice_to_sublist|apply matching_words_sublist].
Qed.

Lemma get_next_word_in_keys tokenized_words prefix_string top_n
    start_string word :
  word ∈ get_next_word (fitted tokenized_words) prefix_string top_n
           start_string ->
  prefix_string <> [] /\
  word ∈ Py.keys
           (distribution (fit_model tokenized_words)
              (length (Py.slice_last 2 prefix_string) + 1)
              (Py.slice_last 2 prefix_string)).
Proof.
  intros Hw.
  assert (Hne : prefix_string <> []).
  { intros ->. by apply elem_of_nil in Hw. }
  split; [done|].
  apply (sublist_subseteq _ _
           (get_next_word_sublist tokenized_words prefix_string top_n
              start_string Hne)) in Hw.
  apply list_elem_of_fmap in Hw as [e [-> He]].
  rewrite elem_of_sorted_desc in He.
  apply list_elem_of_fmap. by exists e.
Qed.

(** X5: on a fitted object [get_next_word] never returns a word twice. *)
Theorem get_next_word_no_duplicates tokenized_words prefix_string top_n
    start_string :
  NoDup (get_next_word (fitted tokenized_words) prefix_string top_n
           start_string).
Proof.
  destruct (decide (prefix_string = [])) as [->|Hne].
  { apply NoDup_nil_2. }
  eapply sublist_NoDup; [|by apply get_next_word_sublist].
  rewrite sorted_desc_perm.
  apply NoDup_keys_distribution. by apply context_order.
Qed.

(** ** Where the candidates come from *)

Lemma elem_of_concat {A} (x : A) (ls : list (list A)) :
  x ∈ concat ls <-> exists l, l ∈ ls /\ x ∈ l.
Proof.
  induction ls as [|l ls IH]; simpl.
  - split; [by intros ?%elem_of_nil|]. by intros (l & ?%elem_of_nil & _).
  - rewrite elem_of_app, IH. split.
    + intros [Hx|(l' & Hl' & Hx)].
      * exists l. split; [left|done].
      * exists l'. split; [by right|done].
    + intros (l' & Hl' & Hx). apply elem_of_cons in Hl' as [->|Hl'].
      * by left.
      * right. by exists l'.
Qed.

Lemma elem_of_map {A B} (f : A -> B) (l : list A) (y : B) :
  y ∈ map f l <-> exists x, x ∈ l /\ y = f x.
Proof.
  induction l as [|a l IH]; simpl.
  - split; [by intros ?%elem_of_nil|]. by intros (x & ?%elem_of_nil & _).
  - rewrite elem_of_cons, IH. split.
    + intros [->|(x & Hx & ->)].
      * exists a. split; [left|done].
      * exists x. split; [by right|done].
    + intros (x & Hx & ->). apply elem_of_cons in Hx as [->|Hx].
      * by left.
      * right. by exists x.
Qed.

(** An n-gram of the training stream is a window of a padded sentence. *)
Lemma training_stream_window tokenized_words ngram :
  ngram ∈ training_stream tokenized_words ->
  exists sentence,
    sentence ∈ tokenized_words /\
    ngram ∈ Spec.windows (length ngram)
              (Spec.padded (length ngram) sentence).
Proof.
  unfold training_stream. rewrite !concat_app, !elem_of_app.
  assert (Hk : forall k, (1 <= k)%nat ->
    ngram ∈ concat (map (fun sentence =>
                      ngrams sentence k true true
                             LEFT_SENT_PAD RIGHT_SENT_PAD)
                    tokenized_words) ->
    exists sentence,
      sentence ∈ tokenized_words /\
      ngram ∈ Spec.windows (length ngram)
                (Spec.padded (length ngram) sentence)).
  { intros k Hk Hin.
    apply elem_of_concat in Hin as (l & Hl & Hin).
    apply elem_of_map in Hl as (sentence & Hs & ->).
    exists sentence. split; [done|].
    pose proof (ngrams_length sentence k Hk) as Hlen.
    rewrite Forall_forall in Hlen. rewrite (Hlen _ Hin).
    by rewrite <- ngrams_windows. }
  intros [H3|[H2|H1]]; eapply Hk; try eassumption; lia.
Qed.

Lemma window_infix n l window :
  window ∈ Spec.windows n l ->
  exists l1 l2, l = l1 ++ window ++ l2.
Proof.
  unfold Spec.windows. intros Hw.
  apply list_elem_of_fmap in Hw as (i & -> & _).
  exists (take i l), (drop n (drop i l)).
  by rewrite take_drop, take_drop.
Qed.

Lemma follower_ngram order context ngram word :
  follower order context ngram = Some word ->
  ngram = context ++ [word] /\ length ngram = order.
Proof.
  unfold follower.
  destruct (decide (length ngram = order
                    /\ take (order - 1) ngram = context))
    as [[Hlen Hctx]|]; [|done].
  intros Hlast. split; [|done].
  apply last_Some in Hlast as [g ->].
  rewrite length_app in Hlen. simpl in Hlen. subst order context.
  replace (length g + 1 - 1)%nat with (length g) by lia.
  by rewrite take_app_length.
Qed.

Lemma keys_follow tokenized_words order context word :
  order <> 1%nat ->
  word ∈ Py.keys (distribution (fit_model tokenized_words) order context) ->
  (length context + 1)%nat = order /\ follows tokenized_words context word.
Proof.
  intros Horder Hw.
  rewrite keys_distribution_fit_model in Hw by done.
  apply elem_of_foldl_add_key in Hw as [Hw|Hw];
    [by apply elem_of_nil in Hw|].
  apply list_elem_of_omap in Hw as (ngram & Hin & Hf).
  apply follower_ngram in Hf as [-> Hlen].
  rewrite length_app in Hlen. simpl in Hlen. split; [done|].
  apply training_stream_window in Hin as (sentence & Hs & Hwin).
  apply window_infix in Hwin as (l1 & l2 & Hpad).
  exists sentence, l1, l2. split; [done|].
  rewrite length_app in Hpad. simpl in Hpad.
  rewrite Hpad. by rewrite <- app_assoc.
Qed.

(** X6: on a fitted object every word [get_next_word] returns was met in
    training right after the context: some padded training sentence
    holds the last two tokens of the prefix (the single token of a
    one-token prefix) followed by that word. *)
Theorem get_next_word_seen_in_training tokenized_words prefix_string top_n
    start_string :
  Forall (follows tokenized_words (Py.slice_last 2 prefix_string))
         (get_next_word (fitted tokenized_words) prefix_string top_n
            start_string).
Proof.
  apply Forall_forall. intros word Hw.
  apply get_next_word_in_keys in Hw as [Hne Hw].
  apply keys_follow in Hw as [_ Hw]; [done|]. by apply context_order.
Qed.

Lemma follows_token tokenized_words context word :
  follows tokenized_words context word ->
  word ∈ concat tokenized_words \/ word = RIGHT_SENT_PAD.
Proof.
  intros (sentence & l1 & l2 & Hs & Hpad).
  unfold Spec.padded in Hpad.
  replace (length context + 1 - 1)%nat with (length context) in Hpad by lia.
  assert (Hlook :
    (replicate (length context) LEFT_SENT_PAD
     ++ sentence ++ replicate (length context) RIGHT_SENT_PAD)
    !! (length context + length l1)%nat = Some word).
  { rewrite Hpad.
    rewrite lookup_app_r by lia.
    replace (length context + length l1 - length l1)%nat
      with (length context) by lia.
    rewrite lookup_app_r by lia.
    by replace (length context - length context)%nat with 0%nat by lia. }
  rewrite lookup_app_r in Hlook by (rewrite length_replicate; lia).
  apply list_elem_of_lookup_2 in Hlook.
  apply elem_of_app in Hlook as [Hin|Hin].
  - left. apply elem_of_concat. by exists sentence.
  - right. by apply elem_of_replicate_inv in Hin.
Qed.

Lemma get_sentence_loop_words tokenized_words (P : token -> Prop)
    iterations sentence :
  (forall word, word ∈ concat tokenized_words -> P word) ->
  Forall P sentence ->
  Forall P (get_sentence_loop (fitted tokenized_words) iterations sentence).
Proof.
  intros HP. revert sentence.
  induction iterations as [|n IH]; intros s Hs; simpl; [done|].
  destruct (get_next_word (fitted tokenized_words) s 1 "")
    as [|w ws] eqn:Hw; [done|].
  destruct (decide (w = RIGHT_SENT_PAD)) as [|Hne]; [done|].
  apply IH. apply Forall_app. split; [done|].
  apply Forall_singleton, HP.
  assert (Hin : w ∈ get_next_word (fitted tokenized_words) s 1 "")
    by (rewrite Hw; left).
  apply get_next_word_in_keys in Hin as [Hs' Hin].
  apply keys_follow in Hin as [_ Hin]; [|by apply context_order].
  by apply follows_token in Hin as [?|?].
Qed.

(** X7: on a fitted object every word of the sentence [get_sentence]
    returns is a word of the prefix or a token of the training corpus; no
    sentinel and no other word is ever appended. *)
Theorem get_sentence_words tokenized_words prefix_string
    max_sentence_length :
  Forall (fun word =>
            word ∈ prefix_string \/ word ∈ concat tokenized_words)
         (get_sentence (fitted tokenized_words) prefix_string
            max_sentence_length).
Proof.
  assert (Hp : Forall (fun word => word ∈ prefix_string
                                   \/ word ∈ concat tokenized_words)
                      prefix_string).
  { apply Forall_forall. by left. }
  unfold get_sentence. simpl.
  destruct ((max_sentence_length <=? Z.of_nat (length prefix_string))
            || (length prefix_string =? 0)%nat); [done|].
  apply get_sentence_loop_words; [|done]. by right.
Qed.

(** ** The counts of a fitted model *)

Lemma spec_count_app sentences sentences' n context word :
  Spec.count (sentences ++ sentences') n context word
  = (Spec.count sentences n context word
     + Spec.count sentences' n context word)%nat.
Proof. unfold Spec.count. by rewrite fmap_app, sum_list_with_app. Qed.

(** X8: counts add up over corpora: the count a model fitted on two
    corpora put together stores for (order, context, word) is the sum of
    the counts of the models fitted on each, at every order. *)
Theorem fit_counts_additive tokenized_words tokenized_words' order context
    word :
  count (fit_model (tokenized_words ++ tokenized_words')) order context word
  = (count (fit_model tokenized_words) order context word
     + count (fit_model tokenized_words') order context word)%nat.
Proof.
  rewrite !count_fit_model.
  repeat case_decide; rewrite ?spec_count_app; lia.
Qed.

Lemma sum_list_lengths {A} (ls : list (list A)) :
  sum_list (length <$> ls) = length (concat ls).
Proof.
  induction ls as [|l ls IH]; simpl; [done|].
  rewrite length_app. f_equal. exact IH.
Qed.

(** X9: [unigrams.N()], the cap of [get_next_word], is the number of
    tokens of the training sentences (sentinels are not counted at order
    1). *)
Theorem unigram_total_is_token_count tokenized_words :
  N (unigrams (fit_model tokenized_words))
  = length (concat tokenized_words).
Proof. by rewrite N_fit_model, sum_list_lengths. Qed.

Lemma windows_1 (l : list token) :
  Spec.windows 1 l = (fun x => [x]) <$> l.
Proof.
  induction l as [|x l IH]; [done|].
  rewrite windows_cons by lia. by rewrite IH.
Qed.

Lemma increments_1 word sentence :
  Spec.increments 1 [] word sentence = occurrences word sentence.
Proof.
  unfold Spec.increments, occurrences, Spec.padded. simpl.
  rewrite app_nil_r, windows_1.
  induction sentence as [|x sentence IH]; [done|].
  rewrite fmap_cons, !filter_cons.
  destruct (decide (take 0 [x] = [] /\ last [x] = Some word))
    as [[_ [= ->]]|Hmiss].
  - destruct (decide (word = word)); [|done]. simpl. by rewrite IH.
  - destruct (decide (x = word)) as [->|_]; [|exact IH].
    exfalso. by apply Hmiss.
Qed.

Lemma unigram_count_occurrences tokenized_words word :
  getitem_str (fit_model tokenized_words) word
  = occurrences word (concat tokenized_words).
Proof.
  pose proof (count_fit_model tokenized_words 1 [] word) as Hc.
  unfold count in Hc at 1.
  destruct (decide (1%nat = 1%nat)); [|done].
  destruct (decide (@nil token = [])); [|done].
  rewrite Hc. clear Hc.
  destruct (decide (3%nat = 1%nat)); [done|].
  destruct (decide (2%nat = 1%nat)); [done|]. simpl.
  unfold Spec.count, occurrences.
  induction tokenized_words as [|s tw IH]; [done|].
  rewrite fmap_cons. simpl.
  rewrite filter_app, length_app, increments_1. f_equal. exact IH.
Qed.

(** X10: on a fitted object [in_vocabulary word count_threshold] holds
    exactly when the word occurs more than [count_threshold] times among
    the tokens of the training sentences; on an object that was never
    fitted it never holds. *)
Theorem in_vocabulary_occurrences tokenized_words word count_threshold :
  (in_vocabulary (fitted tokenized_words) word count_threshold = true
   <-> count_threshold
       < Z.of_nat (occurrences word (concat tokenized_words)))
  /\ in_vocabulary init word count_threshold = false.
Proof.
  split; [|reflexivity].
  unfold in_vocabulary. simpl.
  rewrite unigram_count_occurrences. apply Z.ltb_lt.
Qed.

(** ** The shape of a fitted model *)

Lemma Forall_update {K V} `{EqDecision K} (P : K * V -> Prop) dflt
    (f : V -> V) k (d : list (K * V)) :
  P (k, f dflt) -> (forall v, P (k, v) -> P (k, f v)) ->
  Forall P d -> Forall P (Py.update dflt f k d).
Proof.
  intros Hnew Hold. induction d as [|[k0 v] d IH]; intros Hd; simpl.
  - by apply Forall_singleton.
  - apply Forall_cons in Hd as [Hkv Hd].
    destruct (decide (k = k0)) as [->|Hne].
    + apply Forall_cons. split; [by apply Hold|done].
    + apply Forall_cons. split; [done|by apply IH].
Qed.

Lemma positive_counts_incr word fd :
  positive_counts fd -> positive_counts (incr word fd).
Proof.
  unfold positive_counts, incr. apply Forall_update; simpl; intros; lia.
Qed.

Lemma incr_not_nil word fd : incr word fd <> [].
Proof.
  unfold incr. destruct fd as [|[w c] fd]; simpl; [done|].
  by destruct (decide (word = w)).
Qed.

Lemma well_formed_update_ngram nc ngram :
  (1 <= length ngram <= 3)%nat ->
  well_formed_counter nc -> well_formed_counter (update_ngram nc ngram).
Proof.
  intros Hlen [Huni Hcounts]. unfold update_ngram.
  destruct (last ngram) as [word|]; [|done].
  destruct (decide (length ngram = 1%nat)) as [Hone|Hmore].
  - split; [by apply positive_counts_incr|done].
  - split; [done|]. simpl.
    apply Forall_update; [| |done]; simpl.
    + split; [lia|]. apply Forall_singleton. simpl.
      rewrite length_take. split; [lia|]. split; [apply incr_not_nil|].
      apply positive_counts_incr, Forall_nil_2.
    + intros cfd [Horder Hcfd]. split; [done|].
      apply Forall_update; [| |done]; simpl.
      * rewrite length_take. split; [lia|]. split; [apply incr_not_nil|].
        apply positive_counts_incr, Forall_nil_2.
      * intros fd (Hctx & _ & Hpos). split; [done|].
        split; [apply incr_not_nil|by apply positive_counts_incr].
Qed.

Lemma training_stream_lengths tokenized_words :
  Forall (fun ngram => (1 <= length ngram <= 3)%nat)
         (training_stream tokenized_words).
Proof.
  apply Forall_forall. intros ngram.
  unfold training_stream. rewrite !concat_app, !elem_of_app.
  assert (Hk : forall k, (1 <= k)%nat ->
    ngram ∈ concat (map (fun sentence =>
                      ngrams sentence k true true
                             LEFT_SENT_PAD RIGHT_SENT_PAD)
                    tokenized_words) ->
    length ngram = k).
  { intros k Hk Hin.
    apply elem_of_concat in Hin as (l & Hl & Hin).
    apply elem_of_map in Hl as (sentence & Hs & ->).
    pose proof (ngrams_length sentence k Hk) as Hlen.
    rewrite Forall_forall in Hlen. by apply Hlen. }
  intros [H3|[H2|H1]].
  - rewrite (Hk 3%nat) by (done || lia). lia.
  - rewrite (Hk 2%nat) by (done || lia). lia.
  - rewrite (Hk 1%nat) by (done || lia). lia.
Qed.

Lemma well_formed_foldl stream nc :
  Forall (fun ngram => (1 <= length ngram <= 3)%nat) stream ->
  well_formed_counter nc ->
  well_formed_counter (foldl update_ngram nc stream).
Proof.
  revert nc. induction stream as [|ngram stream IH]; intros nc Hs Hnc;
    simpl; [done|].
  apply Forall_cons in Hs as [Hg Hs].
  apply IH; [done|]. by apply well_formed_update_ngram.
Qed.

(** X11: the counter [fit] builds is well formed: it stores the orders 2
    and 3 only (next to the unigrams), every context stored at order n
    has exactly n-1 tokens, no stored distribution is empty, and every
    stored count, unigrams included, is at least 1. *)
Theorem fit_model_well_formed tokenized_words :
  well_formed_counter (fit_model tokenized_words).
Proof.
  rewrite fit_model_stream.
  apply well_formed_foldl; [apply training_stream_lengths|].
  split; [apply Forall_nil_2|]. simpl. apply Forall_nil_2.
Qed.

(** ** Followers add up *)

Lemma N_distribution_update_ngram nc ngram order context :
  (2 <= order)%nat ->
  N (distribution (update_ngram nc ngram) order context)
  = (N (distribution nc order context)
     + if decide (length ngram = order /\ take (order - 1) ngram = context)
       then 1 else 0)%nat.
Proof.
  intros Horder. unfold update_ngram, distribution.
  destruct (decide (length ngram = order
                    /\ take (order - 1) ngram = context)) as [[Hlen Hctx]|Hmiss].
  - destruct (last ngram) as [w|] eqn:Hlast.
    2:{ apply last_None in Hlast. subst ngram. simpl in Hlen. lia. }
    destruct (decide (length ngram = 1%nat)); [lia|]. simpl.
    rewrite Hlen, Hctx, get_update.
    destruct (decide (order = order)); [|done].
    rewrite get_update.
    destruct (decide (context = context)); [|done].
    rewrite N_incr. by rewrite Nat.add_1_r.
  - rewrite Nat.add_0_r.
    destruct (last ngram) as [w|]; [|done].
    destruct (decide (length ngram = 1%nat)); [done|]. simpl.
    rewrite get_update.
    destruct (decide (order = length ngram)) as [->|]; [|done].
    rewrite get_update.
    destruct (decide (context = take (length ngram - 1) ngram))
      as [->|]; [|done].
    exfalso. by apply Hmiss.
Qed.

Lemma N_distribution_foldl stream nc order context :
  (2 <= order)%nat ->
  N (distribution (foldl update_ngram nc stream) order context)
  = (N (distribution nc order context)
     + context_hits order context stream)%nat.
Proof.
  intros Horder. unfold context_hits. revert nc.
  induction stream as [|ngram stream IH]; intros nc; simpl.
  - by rewrite Nat.add_0_r.
  - rewrite IH, N_distribution_update_ngram, filter_cons by done.
    destruct (decide (length ngram = order
                      /\ take (order - 1) ngram = context)); simpl.
    + by rewrite <- Nat.add_assoc.
    + by rewrite Nat.add_0_r.
Qed.

Lemma context_hits_bigram_yield x b sequence :
  context_hits 2 [x] (ngrams_yield [b] sequence)
  = occurrences x (take (length sequence) (b :: sequence)).
Proof.
  unfold context_hits, occurrences. revert b.
  induction sequence as [|y sequence IH]; intros b; [done|].
  cbn [ngrams_yield app drop length].
  rewrite firstn_cons, !filter_cons.
  destruct (decide (length [b; y] = 2%nat /\ take (2 - 1) [b; y] = [x]))
    as [[_ [= ->]]|Hmiss].
  - destruct (decide (x = x)); [|done]. simpl. f_equal. apply IH.
  - destruct (decide (b = x)) as [->|_]; [|apply IH].
    exfalso. by apply Hmiss.
Qed.

Lemma context_hits_bigrams x sentence :
  context_hits 2 [x]
    (ngrams sentence 2 true true LEFT_SENT_PAD RIGHT_SENT_PAD)
  = ((if decide (x = LEFT_SENT_PAD) then 1 else 0)
     + occurrences x sentence)%nat.
Proof.
  rewrite ngrams_as_yield. simpl replicate.
  rewrite context_hits_bigram_yield, length_app. simpl length.
  replace (length sentence + 1)%nat with (S (length sentence)) by lia.
  rewrite firstn_cons, take_app_length.
  unfold occurrences. rewrite filter_cons.
  destruct (decide (LEFT_SENT_PAD = x)) as [<-|Hne].
  - by destruct (decide (LEFT_SENT_PAD = LEFT_SENT_PAD)).
  - destruct (decide (x = LEFT_SENT_PAD)); [congruence|done].
Qed.

Lemma context_hits_bigram_stream x tokenized_words :
  context_hits 2 [x]
    (concat (map (fun sentence =>
               ngrams sentence 2 true true LEFT_SENT_PAD RIGHT_SENT_PAD)
             tokenized_words))
  = ((if decide (x = LEFT_SENT_PAD) then length tokenized_words else 0)
     + occurrences x (concat tokenized_words))%nat.
Proof.
  induction tokenized_words as [|s tw IH]; simpl.
  - by destruct (decide (x = LEFT_SENT_PAD)).
  - rewrite context_hits_app, IH, context_hits_bigrams.
    unfold occurrences. rewrite filter_app, length_app.
    destruct (decide (x = LEFT_SENT_PAD)); lia.
Qed.

Lemma stream_lengths k tokenized_words :
  (1 <= k)%nat ->
  Forall (fun ngram => length ngram = k)
    (concat (map (fun sentence =>
               ngrams sentence k true true LEFT_SENT_PAD RIGHT_SENT_PAD)
             tokenized_words)).
Proof.
  intros Hk. apply Forall_forall. intros g Hg.
  apply elem_of_concat in Hg as (l & Hl & Hg).
  apply elem_of_map in Hl as (s & _ & ->).
  pose proof (ngrams_length s k Hk) as Hlen.
  rewrite Forall_forall in Hlen. by apply Hlen.
Qed.

(** X12: in a fitted model the counts of the words that follow a token
    at order 2 add up to the number of times the token occurs in the
    training sentences, which is its unigram count; those that follow
    START add up to that plus the number of sentences. *)
Theorem bigram_followers_total tokenized_words x :
  N (distribution (fit_model tokenized_words) 2 [x])
  = ((if decide (x = LEFT_SENT_PAD) then length tokenized_words else 0)
     + getitem_str (fit_model tokenized_words) x)%nat.
Proof.
  rewrite unigram_count_occurrences.
  rewrite fit_model_stream, N_distribution_foldl by lia.
  unfold training_stream.
  rewrite !concat_app, !context_hits_app.
  rewrite (context_hits_wrong_order 3 2 [x] _
             (stream_lengths 3 tokenized_words ltac:(lia)) ltac:(lia)).
  rewrite (context_hits_wrong_order 1 2 [x] _
             (stream_lengths 1 tokenized_words ltac:(lia)) ltac:(lia)).
  rewrite context_hits_bigram_stream. simpl. lia.
Qed.

(** ** Completions *)

Lemma get_next_word_startswith self prefix_string top_n start_string :
  Forall (fun word => Py.startswith word start_string = true)
         (get_next_word self prefix_string top_n start_string).
Proof.
  destruct self as [[nc|]]; [|apply Forall_nil_2].
  destruct prefix_string as [|x p]; [apply Forall_nil_2|].
  rewrite get_next_word_unfold by done.
  apply Forall_forall. intros w Hw.
  pose proof (matching_words_startswith nc
    (length (Py.slice_last 2 (x :: p)) + 1) (Py.slice_last 2 (x :: p))
    start_string) as Hall.
  rewrite Forall_forall in Hall. apply Hall.
  eapply elem_of_prefix; [exact Hw|apply slice_to_prefix].
Qed.

Lemma get_next_word_count self prefix_string top_n start_string :
  0 <= top_n ->
  Z.of_nat (length (get_next_word self prefix_string top_n start_string))
  <= top_n.
Proof.
  intros Hn. destruct self as [[nc|]]; [|simpl; lia].
  destruct prefix_string as [|x p]; [simpl; lia|].
  rewrite get_next_word_unfold by done. by apply slice_to_length.
Qed.

Lemma get_sentence_fitted nc prefix_string max_sentence_length :
  let r := get_sentence (mkAutocompleter (Some nc)) prefix_string
                        max_sentence_length in
  prefix_string `prefix_of` r /\
  Z.of_nat (length r)
  <= Z.max max_sentence_length (Z.of_nat (length prefix_string)).
Proof.
  unfold get_sentence. simpl.
  destruct (Z.leb_spec max_sentence_length (Z.of_nat (length prefix_string)));
    simpl; [split; [done|lia]|].
  destruct (length prefix_string =? 0)%nat; [split; [done|lia]|].
  split; [apply get_sentence_loop_extends|].
  pose proof (get_sentence_loop_length (mkAutocompleter (Some nc))
    (Z.to_nat (max_sentence_length - Z.of_nat (length prefix_string)))
    prefix_string).
  lia.
Qed.

Lemma generate_completions_unfold util nc prefix_string max_sentence_length
    max_num_of_sentences :
  let self := mkAutocompleter (Some nc) in
  let tokens := prefix_tokens util prefix_string in
  generate_completions util self prefix_string max_sentence_length
                       max_num_of_sentences
  = match tokens with
    | [] => []
    | _ :: _ =>
        map (fun word =>
               get_true_case util
                 (detokenize util
                    (get_sentence self ((split_stub self tokens).2 ++ [word])
                                  max_sentence_length)))
            (get_next_word self (split_stub self tokens).2
                           max_num_of_sentences (split_stub self tokens).1)
    end.
Proof.
  intros self tokens. unfold generate_completions, split_stub. simpl.
  fold (prefix_tokens util prefix_string). fold tokens.
  destruct (last tokens) as [t|] eqn:Hlast.
  - destruct tokens as [|a tokens']; [done|].
    by destruct (negb (in_vocabulary self t 50)).
  - by apply last_None in Hlast as ->.
Qed.

(** X13: on a fitted object every completion [generate_completions]
    returns is the true-cased, detokenized form of a token sequence that
    starts with the kept prefix tokens followed by one word that starts
    with the start string (the out-of-vocabulary last token, if there is
    one), and that is no longer than the larger of [max_sentence_length]
    and the number of kept tokens plus one. *)
Theorem generate_completions_shape util nc prefix_string max_sentence_length
    max_num_of_sentences :
  let self := mkAutocompleter (Some nc) in
  let tokens := prefix_tokens util prefix_string in
  let start_string := (split_stub self tokens).1 in
  let kept := (split_stub self tokens).2 in
  Forall (fun completion =>
            exists word sentence,
              completion = get_true_case util (detokenize util sentence)
              /\ (kept ++ [word]) `prefix_of` sentence
              /\ Py.startswith word start_string = true
              /\ Z.of_nat (length sentence)
                 <= Z.max max_sentence_length (Z.of_nat (length kept) + 1))
         (generate_completions util self prefix_string max_sentence_length
                               max_num_of_sentences).
Proof.
  intros self tokens start_string kept.
  subst self tokens start_string kept.
  rewrite generate_completions_unfold. simpl.
  apply Forall_forall. intros c Hc.
  destruct (prefix_tokens util prefix_string) as [|a tokens'] eqn:Htok;
    [by apply elem_of_nil in Hc|].
  rewrite <- Htok in *.
  apply elem_of_map in Hc as (word & Hword & ->).
  eexists word, _. split; [reflexivity|].
  match goal with
  | |- context [get_sentence _ (?kept ++ [word]) _] =>
      destruct (get_sentence_fitted nc (kept ++ [word]) max_sentence_length)
        as [Hext Hlen]
  end.
  split; [exact Hext|]. split.
  - match type of Hword with
    | _ ∈ get_next_word ?s ?p ?n ?st =>
        pose proof (get_next_word_startswith s p n st) as Hall
    end.
    rewrite Forall_forall in Hall. by apply Hall.
  - rewrite length_app in Hlen. simpl in Hlen. lia.
Qed.

(** X14: [generate_completions] returns at most [max_num_of_sentences]
    completions when that number is not negative, whatever the object's
    state and the text pipeline. *)
Theorem generate_completions_count util self prefix_string
    max_sentence_length max_num_of_sentences :
  0 <= max_num_of_sentences ->
  Z.of_nat (length (generate_completions util self prefix_string
                      max_sentence_length max_num_of_sentences))
  <= max_num_of_sentences.
Proof.
  intros Hn. destruct self as [[nc|]]; [|simpl; lia].
  rewrite generate_completions_unfold.
  destruct (prefix_tokens util prefix_string); [simpl; lia|].
  rewrite length_map. by apply get_next_word_count.
Qed.

Lemma generate_completions_count_witness :
  0 <= 2 /\
  Z.of_nat (length (generate_completions plain_pipeline (fitted corpus)
                      "how" 6 2)) <= 2.
Proof.
  assert (H : 0 <= 2) by lia.
  split; [exact H|].
  exact (generate_completions_count plain_pipeline (fitted corpus)
           "how" 6 2 H).
Defined.

(** X15: a prefix whose text tokenizes to nothing, or to a single token
    that is not in the vocabulary, has no completions: the lone token
    becomes the start string and no context is left. *)
Theorem generate_completions_no_context util self prefix_string
    max_sentence_length max_num_of_sentences :
  prefix_tokens util prefix_string = []
  \/ (exists t, prefix_tokens util prefix_string = [t]
                /\ in_vocabulary self t 50 = false) ->
  generate_completions util self prefix_string max_sentence_length
                       max_num_of_sentences = [].
Proof.
  intros Hyp. destruct self as [[nc|]]; [|reflexivity].
  rewrite generate_completions_unfold.
  destruct Hyp as [->|(t & -> & Hvoc)]; [reflexivity|].
  assert (Hsplit : split_stub (mkAutocompleter (Some nc)) [t] = (t, [])).
  { unfold split_stub. cbn [last]. by rewrite Hvoc. }
  rewrite Hsplit. reflexivity.
Qed.

Lemma generate_completions_no_context_witness :
  (prefix_tokens plain_pipeline "how" = []
   \/ (exists t, prefix_tokens plain_pipeline "how" = [t]
                 /\ in_vocabulary (fitted corpus) t 50 = false)) /\
  generate_completions plain_pipeline (fitted corpus) "how" 5 1 = [].
Proof.
  assert (H : prefix_tokens plain_pipeline "how" = []
              \/ (exists t, prefix_tokens plain_pipeline "how" = [t]
                            /\ in_vocabulary (fitted corpus) t 50 = false)).
  { right. exists "how". split; reflexivity. }
  split; [exact H|].
  exact (generate_completions_no_context plain_pipeline (fitted corpus)
           "how" 5 1 H).
Defined.

(** ** Fitting again *)

(** X16: what a successful [fit] leaves behind does not depend on the
    object's earlier state: fitting an object that already holds a model
    gives the same object as fitting a new one (counts are not added to
    the old ones), and the new object is a fitted one. *)
Theorem fit_replaces_model w util json_filename company_group_id_filter
    self self' :
  fit w util json_filename company_group_id_filter self = (inr tt, self') ->
  (forall other,
     fit w util json_filename company_group_id_filter other
     = (inr tt, self')) /\
  exists tokenized_words, self' = fitted tokenized_words.
Proof.
  intros Hfit. split.
  - intros other. rewrite fit_unfold in *.
    destruct (open_read w json_filename); [discriminate|].
    destruct (json_load w s); [discriminate|].
    destruct (Util.get_operator_messages j company_group_id_filter);
      [discriminate|].
    destruct (sentence_tokenize w l); [discriminate|]. exact Hfit.
  - by eapply fit_success.
Qed.

Lemma fit_replaces_model_witness :
  fit sample_world plain_pipeline "corpus.json" (Some [50001]) init
    = (inr tt, fitted [["hello"]]) /\
  fit sample_world plain_pipeline "corpus.json" (Some [50001])
      (fitted corpus)
    = (inr tt, fitted [["hello"]]).
Proof.
  assert (H : fit sample_world plain_pipeline "corpus.json" (Some [50001])
                  init = (inr tt, fitted [["hello"]])) by reflexivity.
  split; [exact H|].
  exact (proj1 (fit_replaces_model sample_world plain_pipeline "corpus.json"
                  (Some [50001]) init (fitted [["hello"]]) H)
           (fitted corpus)).
Defined.

(** ** Candidates, continued *)

(** X17: on a fitted object every word [get_next_word] returns is a
    token of the training sentences or the END sentinel; the START
    sentinel is never predicted unless the corpus holds it as a token. *)
Theorem get_next_word_tokens tokenized_words prefix_string top_n
    start_string :
  Forall (fun word =>
            word ∈ concat tokenized_words \/ word = RIGHT_SENT_PAD)
         (get_next_word (fitted tokenized_words) prefix_string top_n
            start_string).
Proof.
  apply Forall_forall. intros word Hw.
  apply get_next_word_in_keys in Hw as [Hne Hw].
  apply keys_follow in Hw as [_ Hw]; [|by apply context_order].
  by apply follows_token in Hw.
Qed.

Lemma filter_fst_startswith start_string (items : list (token * nat)) :
  (List.filter (fun wf => Py.startswith wf.1 start_string) items).*1
  = List.filter (fun word => Py.startswith word start_string) items.*1.
Proof.
  induction items as [|[w c] items IH]; [done|]. simpl.
  destruct (Py.startswith w start_string); simpl; [f_equal|]; exact IH.
Qed.

(** X18: when the call with the empty start string returns fewer than
    [top_n] words, so that nothing was cut off, the answer for a start
    string is that list with the words that do not start with the start
    string taken out, in the same order. *)
Theorem get_next_word_start_string_filters nc prefix_string top_n
    start_string :
  let self := mkAutocompleter (Some nc) in
  Z.of_nat (length (get_next_word self prefix_string top_n "")) < top_n ->
  get_next_word self prefix_string top_n start_string
  = List.filter (fun word => Py.startswith word start_string)
                (get_next_word self prefix_string top_n "").
Proof.
  intros self Hlt. subst self.
  destruct prefix_string as [|x p]; [done|].
  rewrite !get_next_word_unfold in * by done.
  set (context := Py.slice_last 2 (x :: p)) in *.
  set (order := (length context + 1)%nat) in *.
  assert (Hfull : Z.of_nat (length (matching_words nc order context ""))
                  <= top_n).
  { destruct (Z.le_gt_cases
                (Z.of_nat (length (matching_words nc order context "")))
                top_n) as [?|Hgt]; [done|].
    destruct (Z.le_gt_cases 0 top_n) as [Hpos|Hneg].
    - rewrite slice_to_full_length in Hlt by lia. lia.
    - lia. }
  rewrite (slice_to_all top_n (matching_words nc order context ""))
    by done.
  unfold matching_words in *.
  rewrite filter_startswith_empty in *.
  rewrite filter_fst_startswith. apply slice_to_all.
  rewrite <- filter_fst_startswith, length_fmap.
  pose proof (sublist_length _ _
    (sublist_List_filter (fun wf => Py.startswith wf.1 start_string)
       (most_common (distribution nc order context) (N (unigrams nc)))))
    as Hlen.
  rewrite length_fmap in Hfull. lia.
Qed.

Lemma get_next_word_start_string_filters_witness :
  Z.of_nat (length (get_next_word (fitted corpus) ["can"; "i"] 5 "")) < 5 /\
  get_next_word (fitted corpus) ["can"; "i"] 5 "he"
  = List.filter (fun word => Py.startswith word "he")
                (get_next_word (fitted corpus) ["can"; "i"] 5 "").
Proof.
  assert (H : Z.of_nat (length (get_next_word (fitted corpus)
                                  ["can"; "i"] 5 "")) < 5)
    by (vm_compute; reflexivity).
  split; [exact H|].
  exact (get_next_word_start_string_filters (fit_model corpus)
           ["can"; "i"] 5 "he" H).
Defined.

(** * Properties of [util.py] *)

(** ** [get_operator_messages] *)

Lemma messages_loop_encoded (ms : list Message) (acc : list json) :
  Util.messages_loop (encode_message <$> ms) acc
  = inr (acc ++ (JStr <$> (message_text <$>
           List.filter (fun m => negb (is_from_customer m)) ms))).
Proof.
  revert acc. induction ms as [|[b t] ms IH]; intros acc.
  - simpl. by rewrite app_nil_r.
  - rewrite fmap_cons. cbn [Util.messages_loop].
    change (Util.getitem (encode_message (mkMessage b t)) "IsFromCustomer")
      with (@inr exn json (JBool b)).
    change (Util.getitem (encode_message (mkMessage b t)) "Text")
      with (@inr exn json (JStr t)).
    cbn [Util.truthy]. destruct b; simpl.
    + apply IH.
    + rewrite IH. by rewrite <- app_assoc.
Qed.

Lemma in_ids_selected (i : Issue) (ids : list Z) :
  Util.in_ids (JNum (company_group_id i)) ids = selected (Some ids) i.
Proof. reflexivity. Qed.

Lemma issues_loop_encoded (issues : list Issue)
    (company_group_id_filter : option (list Z)) (acc : list json) :
  Util.issues_loop (encode_issue <$> issues) company_group_id_filter acc
  = inr (acc ++ (JStr <$> operator_texts company_group_id_filter issues)).
Proof.
  revert acc. induction issues as [|i issues IH]; intros acc.
  - simpl. by rewrite app_nil_r.
  - rewrite fmap_cons. cbn [Util.issues_loop].
    change (Util.getitem (encode_issue i) "CompanyGroupId")
      with (@inr exn json (JNum (company_group_id i))).
    change (Util.getitem (encode_issue i) "Messages")
      with (@inr exn json (JArr (encode_message <$> issue_messages i))).
    cbn [Util.iter].
    assert (Hsel :
      match company_group_id_filter with
      | None => inr true
      | Some ids => inr (Util.in_ids (JNum (company_group_id i)) ids)
      end = @inr exn bool (selected company_group_id_filter i)).
    { by destruct company_group_id_filter. }
    rewrite Hsel. unfold operator_texts. cbn [List.filter].
    destruct (selected company_group_id_filter i).
    + rewrite messages_loop_encoded, IH. cbn [map concat].
      unfold operator_texts, operator_texts_of.
      by rewrite fmap_app, app_assoc.
    + apply IH.
Qed.

(** X19: on the decoded JSON of a well-formed log
    [get_operator_messages] returns, in order, the texts of the messages
    that are not from the customer, of the issues whose company group id
    is in the filter (of all issues when there is no filter); no message
    of a customer and no message of another company is returned. *)
Theorem get_operator_messages_encoded (issues : list Issue)
    (company_group_id_filter : option (list Z)) :
  Util.get_operator_messages (encode_conversations issues)
                             company_group_id_filter
  = inr (JStr <$> operator_texts company_group_id_filter issues).
Proof.
  unfold Util.get_operator_messages.
  change (Util.getitem (encode_conversations issues) "Issues")
    with (@inr exn json (JArr (encode_issue <$> issues))).
  cbn [Util.iter]. by rewrite issues_loop_encoded.
Qed.

(** ** [format_and_clean] *)

Example format_and_clean_sample :
  Clean.format_and_clean id "hello,  <b>dear</b>   sir. 1 < 2"
  = "hello dear sir 1 < 2".
Proof. reflexivity. Qed.

Example strip_tags_per_line :
  Clean.strip_tags false ("a <b" ++ String Clean.newline "c> d <e>f")%string
  = ("a <b" ++ String Clean.newline "c> d f")%string.
Proof. reflexivity. Qed.

Lemma chars_strip_punct s :
  Forall (fun c => Clean.is_punct c = false) (Clean.chars (Clean.strip_punct s)).
Proof.
  induction s as [|c s IH]; simpl; [constructor|].
  destruct (Clean.is_punct c) eqn:Hc; [done|].
  simpl. by constructor.
Qed.

Lemma chars_squeeze_spaces after_space s c :
  c ∈ Clean.chars (Clean.squeeze_spaces after_space s) -> c ∈ Clean.chars s.
Proof.
  revert after_space. induction s as [|c0 s IH]; intros b; simpl; [done|].
  destruct (decide (c0 = Clean.space)) as [->|Hne].
  - destruct b; simpl.
    + intros Hc. right. by eapply IH.
    + intros [->|Hc]%elem_of_cons; [left|right; by eapply IH].
  - simpl. intros [->|Hc]%elem_of_cons; [left|right; by eapply IH].
Qed.

(** X20: the text [format_and_clean] returns holds no dot, no comma and
    no double quote, whatever the text and whatever lowering does. *)
Theorem format_and_clean_no_punctuation lower text :
  Forall (fun c => c <> Clean.dot /\ c <> Clean.comma /\ c <> Clean.quote)
         (Clean.chars (Clean.format_and_clean lower text)).
Proof.
  unfold Clean.format_and_clean. apply Forall_forall. intros c Hc.
  apply chars_squeeze_spaces in Hc.
  pose proof (chars_strip_punct (Clean.strip_tags false (lower text)))
    as Hall.
  rewrite Forall_forall in Hall. specialize (Hall c Hc).
  unfold Clean.is_punct in Hall.
  apply orb_false_iff in Hall as [Hall Hq].
  apply orb_false_iff in Hall as [Hd Hcm].
  apply bool_decide_eq_false in Hd, Hcm, Hq. done.
Qed.

Lemma squeeze_spaces_single after_space s :
  Clean.has_double_space (Clean.squeeze_spaces after_space s) = false /\
  (after_space = true ->
   match Clean.squeeze_spaces after_space s with
   | EmptyString => True
   | String c _ => c <> Clean.space
   end).
Proof.
  revert after_space. induction s as [|c s IH]; intros b; simpl; [done|].
  destruct (decide (c = Clean.space)) as [->|Hne].
  - destruct b.
    + apply IH.
    + split; [|done]. destruct (IH true) as [Hds Hhead].
      simpl. destruct (Clean.squeeze_spaces true s) as [|c' r]; [done|].
      rewrite Hds. specialize (Hhead eq_refl). simpl in Hhead.
      rewrite (bool_decide_eq_false_2 (c' = Clean.space)) by done.
      reflexivity.
  - split; [|done]. destruct (IH false) as [Hds _].
    simpl. destruct (Clean.squeeze_spaces false s) as [|c' r]; [done|].
    rewrite Hds. rewrite (bool_decide_eq_false_2 (c = Clean.space)) by done.
    done.
Qed.

Lemma has_double_space_spec s :
  Clean.has_double_space s = false ->
  forall a b, s <> (a ++ "  " ++ b)%string.
Proof.
  intros Hs a. revert s Hs. induction a as [|c a IH]; intros s Hs b Heq.
  - subst s. simpl in Hs. done.
  - subst s. simpl in Hs.
    destruct (a ++ "  " ++ b)%string as [|c' r] eqn:Hrest.
    + destruct a; discriminate Hrest.
    + apply orb_false_iff in Hs as [_ Hs].
      apply (IH _ Hs b). by rewrite Hrest.
Qed.

(** X21: the text [format_and_clean] returns never has two spaces in a
    row. *)
Theorem format_and_clean_single_spaces lower text a b :
  Clean.format_and_clean lower text <> (a ++ "  " ++ b)%string.
Proof.
  apply has_double_space_spec.
  unfold Clean.format_and_clean. apply squeeze_spaces_single.
Qed.

Lemma closes_strip_tags s :
  Clean.closes (Clean.strip_tags false s) = true -> Clean.closes s = true.
Proof.
  induction s as [|c s IH]; simpl; [done|].
  destruct (decide (c = Clean.lt)) as [->|Hlt].
  - destruct (decide (Clean.lt = Clean.gt)); [done|].
    destruct (decide (Clean.lt = Clean.newline)); [done|].
    destruct (Clean.closes s) eqn:Hs; [done|]. simpl.
    destruct (decide (Clean.lt = Clean.gt)); [done|].
    destruct (decide (Clean.lt = Clean.newline)); [done|].
    exact IH.
  - simpl. destruct (decide (c = Clean.gt)); [done|].
    destruct (decide (c = Clean.newline)); [done|]. exact IH.
Qed.

Lemma has_tag_strip_tags s :
  Clean.has_tag (Clean.strip_tags false s) = false /\
  Clean.has_tag (Clean.strip_tags true s) = false.
Proof.
  induction s as [|c s [IHf IHt]]; simpl; [done|]. split.
  - destruct (decide (c = Clean.lt)) as [->|Hlt].
    + destruct (Clean.closes s) eqn:Hs; [exact IHt|]. simpl.
      rewrite IHf.
      destruct (Clean.closes (Clean.strip_tags false s)) eqn:Hc;
        [apply closes_strip_tags in Hc; congruence|].
      by rewrite ?andb_false_r, ?orb_false_r.
    + simpl. rewrite IHf.
      by rewrite (bool_decide_eq_false_2 (c = Clean.lt)) by done.
  - by destruct (decide (c = Clean.gt)).
Qed.

Lemma closes_strip_punct s :
  Clean.closes (Clean.strip_punct s) = Clean.closes s.
Proof.
  induction s as [|c s IH]; simpl; [done|].
  destruct (Clean.is_punct c) eqn:Hc; simpl.
  - rewrite IH. unfold Clean.is_punct in Hc.
    destruct (decide (c = Clean.gt)) as [->|]; [done|].
    destruct (decide (c = Clean.newline)) as [->|]; done.
  - by rewrite IH.
Qed.

Lemma has_tag_strip_punct s :
  Clean.has_tag (Clean.strip_punct s) = Clean.has_tag s.
Proof.
  induction s as [|c s IH]; simpl; [done|].
  destruct (Clean.is_punct c) eqn:Hc; simpl.
  - rewrite IH. unfold Clean.is_punct in Hc.
    destruct (bool_decide_reflect (c = Clean.lt)) as [->|]; done.
  - by rewrite IH, closes_strip_punct.
Qed.

Lemma closes_squeeze_spaces after_space s :
  Clean.closes (Clean.squeeze_spaces after_space s) = Clean.closes s.
Proof.
  revert after_space. induction s as [|c s IH]; intros b; simpl; [done|].
  destruct (decide (c = Clean.space)) as [->|Hne].
  - destruct (decide (Clean.space = Clean.gt)); [done|].
    destruct (decide (Clean.space = Clean.newline)); [done|].
    destruct b; simpl; [apply IH|].
    destruct (decide (Clean.space = Clean.gt)); [done|].
    destruct (decide (Clean.space = Clean.newline)); [done|]. apply IH.
  - simpl. by rewrite IH.
Qed.

Lemma has_tag_squeeze_spaces after_space s :
  Clean.has_tag (Clean.squeeze_spaces after_space s) = Clean.has_tag s.
Proof.
  revert after_space. induction s as [|c s IH]; intros b; simpl; [done|].
  destruct (decide (c = Clean.space)) as [->|Hne].
  - destruct b; simpl; apply IH.
  - simpl. by rewrite IH, closes_squeeze_spaces.
Qed.

Lemma closes_app m b :
  Clean.newline ∉ Clean.chars m ->
  Clean.closes (m ++ String Clean.gt b)%string = true.
Proof.
  induction m as [|c m IH]; simpl; intros Hnl.
  - by destruct (decide (Clean.gt = Clean.gt)).
  - apply not_elem_of_cons in Hnl as [Hc Hnl].
    destruct (decide (c = Clean.gt)); [done|].
    destruct (decide (c = Clean.newline)); [done|]. by apply IH.
Qed.

Lemma has_tag_spec s :
  Clean.has_tag s = false ->
  forall a m b,
    Clean.newline ∉ Clean.chars m ->
    s <> (a ++ String Clean.lt (m ++ String Clean.gt b))%string.
Proof.
  intros Hs a. revert s Hs.
  induction a as [|c a IH]; intros s Hs m b Hm Heq; subst s; simpl in Hs.
  - by rewrite closes_app in Hs.
  - apply orb_false_iff in Hs as [_ Hs]. by eapply (IH _ Hs m b Hm).
Qed.

(** X22: the text [format_and_clean] returns holds no tag: nowhere does
    a [<] come with a [>] after it on the same line. *)
Theorem format_and_clean_no_tags lower text a m b :
  Clean.newline ∉ Clean.chars m ->
  Clean.format_and_clean lower text
  <> (a ++ String Clean.lt (m ++ String Clean.gt b))%string.
Proof.
  apply has_tag_spec. unfold Clean.format_and_clean.
  rewrite has_tag_squeeze_spaces, has_tag_strip_punct.
  apply has_tag_strip_tags.
Qed.

Lemma format_and_clean_no_tags_witness :
  (Clean.newline ∉ Clean.chars "b") /\
  Clean.format_and_clean id "x <b> y" <> ("x " ++ String Clean.lt ("b" ++ String Clean.gt " y"))%string.
Proof.
  assert (H : Clean.newline ∉ Clean.chars "b") by compute_done.
  split; [exact H|].
  exact (format_and_clean_no_tags id "x <b> y" "x " "b" " y" H).
Defined.

Lemma strip_tags_fixed s :
  Clean.has_tag s = false -> Clean.strip_tags false s = s.
Proof.
  induction s as [|c s IH]; simpl; [done|].
  intros [Hhere Hs]%orb_false_iff.
  destruct (decide (c = Clean.lt)) as [->|Hlt].
  - simpl in Hhere. rewrite Hhere. by rewrite IH.
  - by rewrite IH.
Qed.

Lemma strip_punct_fixed s :
  Forall (fun c => Clean.is_punct c = false) (Clean.chars s) ->
  Clean.strip_punct s = s.
Proof.
  induction s as [|c s IH]; simpl; [done|].
  intros [Hc Hs]%Forall_cons. rewrite Hc. by rewrite IH.
Qed.

Lemma squeeze_spaces_fixed s :
  Clean.has_double_space s = false ->
  Clean.squeeze_spaces false s = s /\
  (match s with
   | EmptyString => True
   | String c _ => c <> Clean.space
   end -> Clean.squeeze_spaces true s = s).
Proof.
  induction s as [|c s IH]; [done|].
  intros Hs.
  assert (Hrest : Clean.has_double_space s = false).
  { simpl in Hs. destruct s; [done|].
    by apply orb_false_iff in Hs as [_ ?]. }
  destruct (IH Hrest) as [IHf IHt]. simpl.
  destruct (decide (c = Clean.space)) as [->|Hne].
  - split; [|done]. rewrite IHt; [done|].
    destruct s as [|c' s]; [done|]. simpl in Hs.
    apply orb_false_iff in Hs as [Hs _].
    simpl in Hs. by apply bool_decide_eq_false in Hs.
  - split; intros; by rewrite IHf.
Qed.

(** X23: cleaning is idempotent: a text that [format_and_clean] returned
    comes back unchanged when it is cleaned again, as long as lowering
    leaves it alone (as [str.lower] does for a text it has lowered). *)
Theorem format_and_clean_idempotent lower text :
  lower (Clean.format_and_clean lower text)
  = Clean.format_and_clean lower text ->
  Clean.format_and_clean lower (Clean.format_and_clean lower text)
  = Clean.format_and_clean lower text.
Proof.
  set (r := Clean.format_and_clean lower text). intros Hlower.
  unfold Clean.format_and_clean at 1. simpl. rewrite Hlower.
  assert (Htag : Clean.has_tag r = false).
  { unfold r, Clean.format_and_clean.
    rewrite has_tag_squeeze_spaces, has_tag_strip_punct.
    apply has_tag_strip_tags. }
  assert (Hpunct : Forall (fun c => Clean.is_punct c = false) (Clean.chars r)).
  { apply Forall_forall. intros c Hc.
    unfold r, Clean.format_and_clean in Hc.
    apply chars_squeeze_spaces in Hc.
    pose proof (chars_strip_punct (Clean.strip_tags false (lower text)))
      as Hall.
    rewrite Forall_forall in Hall. by apply Hall. }
  assert (Hspace : Clean.has_double_space r = false).
  { unfold r, Clean.format_and_clean. apply squeeze_spaces_single. }
  rewrite strip_tags_fixed, strip_punct_fixed by done.
  by apply squeeze_spaces_fixed.
Qed.

Lemma format_and_clean_idempotent_witness :
  Clean.format_and_clean id (Clean.format_and_clean id "a,  <b>c. d")
  = Clean.format_and_clean id "a,  <b>c. d".
Proof.
  apply (format_and_clean_idempotent id "a,  <b>c. d"). reflexivity.
Defined.

(** * The number of words a query returns *)

Lemma sublist_List_filter_mono {A} (f : A -> bool) (l1 l2 : list A) :
  l1 `sublist_of` l2 -> List.filter f l1 `sublist_of` List.filter f l2.
Proof.
  induction 1 as [|x l1 l2 _ IH|x l1 l2 _ IH]; simpl.
  - constructor.
  - destruct (f x); [by constructor|exact IH].
  - destruct (f x); [by constructor|exact IH].
Qed.

Lemma List_filter_perm_length {A} (f : A -> bool) (l1 l2 : list A) :
  l1 ≡ₚ l2 -> length (List.filter f l1) = length (List.filter f l2).
Proof.
  induction 1 as [|x l1 l2 _ IH|x y l|l1 l2 l3 _ IH1 _ IH2]; simpl.
  - done.
  - destruct (f x); simpl; by rewrite IH.
  - destruct (f x), (f y); done.
  - by rewrite IH1.
Qed.

Lemma matching_words_candidates nc order context start_string :
  let candidates :=
    List.filter (fun word => Py.startswith word start_string)
                (Py.keys (distribution nc order context)) in
  (length (matching_words nc order context start_string)
   <= length candidates)%nat /\
  Forall (fun word => word ∈ candidates)
         (matching_words nc order context start_string).
Proof.
  intros candidates. unfold matching_words, most_common. split.
  - rewrite length_fmap. unfold candidates, Py.keys.
    rewrite <- filter_fst_startswith, length_fmap.
    rewrite <- (List_filter_perm_length _ _ _
                  (sorted_desc_perm (distribution nc order context))).
    apply sublist_length, sublist_List_filter_mono, sublist_take.
  - apply Forall_forall. intros w Hw.
    apply list_elem_of_fmap in Hw as [[w' c] [-> Hin]].
    apply list_elem_of_In, filter_In in Hin as [Hin Hsw].
    apply list_elem_of_In in Hin.
    apply (sublist_subseteq _ _ (sublist_take _ _)) in Hin.
    rewrite elem_of_sorted_desc in Hin.
    unfold candidates. apply list_elem_of_In, filter_In. split; [|done].
    apply list_elem_of_In, list_elem_of_fmap. by exists (w', c).
Qed.

(** C7: for a [top_n] that is not negative, [get_next_word] returns at
    most [top_n] words; every returned word starts with [start_string]
    (the empty string matches every word); and when fewer than [top_n]
    words stored after the context start with [start_string], fewer than
    [top_n] words come back: the result is never longer than the list of
    those matching candidates and holds no other word. *)
Theorem get_next_word_top_n nc prefix_string top_n start_string :
  0 <= top_n ->
  let self := mkAutocompleter (Some nc) in
  let conditional_word_tuple := Py.slice_last 2 prefix_string in
  let candidates :=
    List.filter (fun word => Py.startswith word start_string)
                (Py.keys (getitem_tuple nc conditional_word_tuple)) in
  let r := get_next_word self prefix_string top_n start_string in
  Z.of_nat (length r) <= top_n /\
  Forall (fun word => Py.startswith word start_string = true) r /\
  (forall word, Py.startswith word "" = true) /\
  (Z.of_nat (length candidates) < top_n -> Z.of_nat (length r) < top_n) /\
  (length r <= length candidates)%nat /\
  Forall (fun word => word ∈ candidates) r.
Proof.
  intros Hn self context candidates r.
  destruct prefix_string as [|x p].
  { split; [simpl; lia|]. split; [by apply Forall_nil|].
    split; [apply startswith_empty|]. split; [simpl; lia|].
    split; [simpl; lia|by apply Forall_nil]. }
  set (matches := matching_words nc (length context + 1) context
                    start_string).
  assert (Hr : r = Py.slice_to top_n matches).
  { unfold r, self. by rewrite get_next_word_unfold. }
  assert (Hpre : r `prefix_of` matches).
  { rewrite Hr. apply slice_to_prefix. }
  destruct (matching_words_candidates nc (length context + 1) context
              start_string) as [Hlen Hall].
  fold matches in Hlen, Hall.
  assert (Hrlen : (length r <= length candidates)%nat).
  { etrans; [apply prefix_length, Hpre|exact Hlen]. }
  split; [rewrite Hr; by apply slice_to_length|].
  split.
  { eapply Forall_forall. intros w Hw.
    pose proof (matching_words_startswith nc (length context + 1) context
                  start_string) as Hsw.
    rewrite Forall_forall in Hsw. apply Hsw.
    by eapply elem_of_prefix. }
  split; [apply startswith_empty|].
  split; [lia|]. split; [exact Hrlen|].
  apply Forall_forall. intros w Hw. rewrite Forall_forall in Hall.
  apply Hall. by eapply elem_of_prefix.
Qed.

Lemma get_next_word_top_n_witness :
  0 <= 5 /\
  Z.of_nat (length (get_next_word (fitted corpus) ["can"; "i"] 5 "")) < 5.
Proof.
  split; [lia|].
  apply (get_next_word_top_n (fit_model corpus) ["can"; "i"] 5 ""
           ltac:(lia)).
  vm_compute. reflexivity.
Defined.

(** * The order of the words a query returns *)

Lemma ranks_before_asym tokenized_words order context w1 w2 :
  ranks_before tokenized_words order context w1 w2 ->
  ranks_before tokenized_words order context w2 w1 -> False.
Proof. unfold ranks_before. simpl. lia. Qed.

Lemma sorted_desc_is_ranking tokenized_words order context :
  order <> 1%nat ->
  is_ranking tokenized_words order context
    (sorted_desc (distribution (fit_model tokenized_words) order context)).*1.
Proof.
  intros Horder. split; [|by apply sorted_desc_ranked].
  unfold Py.keys. by rewrite sorted_desc_perm.
Qed.

Lemma is_ranking_unique tokenized_words order context ranking ranking' :
  is_ranking tokenized_words order context ranking ->
  is_ranking tokenized_words order context ranking' ->
  ranking = ranking'.
Proof.
  intros [Hperm Hsorted] [Hperm' Hsorted'].
  eapply StronglySorted_unique_strong;
    [|exact Hsorted|exact Hsorted'|by rewrite Hperm, Hperm'].
  intros w1 w2 _ _ H12 H21. by destruct (ranks_before_asym _ _ _ _ _ H12 H21).
Qed.

(** C3: on a fitted model the words that follow a two-token context have
    one ranking: all the words of the context's distribution, by count in
    descending order and, for equal counts, in the order training first
    counted them after the context.  For a prefix that ends in the
    context, [get_next_word] returns the words of that ranking, in that
    order: the first [N()] of the ranking, of these the ones that start
    with [start_string], cut by [[:top_n]]; when the last token of the
    prefix is no sentinel, or no training sentence is empty or holds a
    sentinel, [N()] cuts nothing off. *)
Theorem get_next_word_ranking tokenized_words pre x y :
  (exists ranking, is_ranking tokenized_words 3 [x; y] ranking) /\
  forall ranking,
    is_ranking tokenized_words 3 [x; y] ranking ->
    (forall top_n start_string,
       get_next_word (fitted tokenized_words) (pre ++ [x; y]) top_n
                     start_string
       = Py.slice_to top_n
           (List.filter (fun word => Py.startswith word start_string)
              (take (N (unigrams (fit_model tokenized_words))) ranking))) /\
    (plain_token y \/ Forall plain_sentence tokenized_words ->
     forall top_n start_string,
       get_next_word (fitted tokenized_words) (pre ++ [x; y]) top_n
                     start_string
       = Py.slice_to top_n
           (List.filter (fun word => Py.startswith word start_string)
              ranking)).
Proof.
  pose proof (sorted_desc_is_ranking tokenized_words 3 [x; y] ltac:(done))
    as Hsorted.
  split; [by eexists|]. intros ranking Hranking.
  rewrite (is_ranking_unique _ _ _ _ _ Hranking Hsorted).
  assert (Hcap : forall top_n start_string,
    get_next_word (fitted tokenized_words) (pre ++ [x; y]) top_n start_string
    = Py.slice_to top_n
        (List.filter (fun word => Py.startswith word start_string)
           (take (N (unigrams (fit_model tokenized_words)))
              (sorted_desc
                 (distribution (fit_model tokenized_words) 3 [x; y])).*1))).
  { intros top_n start_string. unfold fitted.
    rewrite get_next_word_unfold by (by destruct pre).
    rewrite slice_last_app2. simpl.
    unfold matching_words, most_common.
    by rewrite filter_fst_startswith, fmap_take. }
  split; [exact Hcap|]. intros Hplain top_n start_string.
  rewrite Hcap. rewrite take_ge; [done|].
  rewrite length_fmap, length_sorted_desc.
  apply (distribution_within_cap tokenized_words 1 [x; y]); [done|].
  destruct Hplain as [Hy|Hall]; [left|by right].
  exists y. by split.
Qed.

Lemma get_next_word_ranking_witness :
  is_ranking tie_corpus 3 ["a"; "b"] ["c"; "d"; "e"] /\
  get_next_word (fitted tie_corpus) ["a"; "b"] 2 "" = ["c"; "d"].
Proof.
  assert (H : is_ranking tie_corpus 3 ["a"; "b"] ["c"; "d"; "e"]).
  { split.
    - vm_compute. apply perm_swap.
    - repeat constructor; unfold ranks_before; vm_compute; lia. }
  split; [exact H|].
  etrans;
    [exact (proj1 (proj2 (get_next_word_ranking tie_corpus [] "a" "b")
                     _ H) 2 "")|].
  vm_compute. reflexivity.
Defined.

(** * [fit] on input it cannot use *)

Lemma issues_loop_non_object issues issue company_group_id_filter :
  issue ∈ issues ->
  (forall fields, issue <> JObj fields) ->
  forall operator_messages,
    exists e,
      Util.issues_loop issues company_group_id_filter operator_messages
      = inl e.
Proof.
  intros Hin Hobj.
  induction issues as [|i issues IH]; intros operator_messages;
    [by apply elem_of_nil in Hin|].
  apply elem_of_cons in Hin as [<-|Hin].
  - destruct issue as [| | | | |fields]; try (by destruct (Hobj fields));
      destruct company_group_id_filter; simpl; eauto.
  - specialize (IH Hin). simpl.
    repeat case_match; eauto.
Qed.

(** C9, as stated, fails: a log of the wrong structure on which no step
    raises is taken without an error, and the model is replaced by the
    one of an empty corpus. *)
Lemma fit_malformed_accepted_counterexample :
  fit malformed_world plain_pipeline "log.json" None (fitted corpus)
    = (inr tt, fitted []) /\
  ngram_counter (fitted []) <> ngram_counter (fitted corpus).
Proof. split; [vm_compute; reflexivity|]. vm_compute. discriminate. Qed.

(** C9, amended: a [fit] that ends in an exception leaves the object as
    it was before the call, [ngram_counter] included, and the caller gets
    the exception of the step that failed.  It ends in one when the file
    does not exist ([FileNotFoundError]), cannot be read, or is not JSON;
    when the decoded value is not an object ([TypeError]) or has no
    [Issues] entry ([KeyError]); when that entry is null, a boolean or a
    number ([TypeError]); when it is a list that holds something that is
    not an object; and whenever [get_operator_messages] raises. *)
Theorem fit_failure_keeps_model w util json_filename company_group_id_filter
    self :
  (forall e self',
     fit w util json_filename company_group_id_filter self = (inl e, self') ->
     self' = self /\ ngram_counter self' = ngram_counter self) /\
  (files w json_filename = Missing ->
   fit w util json_filename company_group_id_filter self
   = (inl FileNotFoundError, self)) /\
  (files w json_filename = Unreadable ->
   fit w util json_filename company_group_id_filter self
   = (inl PermissionError, self)) /\
  (forall text,
     files w json_filename = Contents text -> json_loads w text = None ->
     fit w util json_filename company_group_id_filter self
     = (inl JSONDecodeError, self)) /\
  (forall text conversations,
     files w json_filename = Contents text ->
     json_loads w text = Some conversations ->
     ((forall fields, conversations <> JObj fields) ->
      fit w util json_filename company_group_id_filter self
      = (inl TypeError, self)) /\
     (forall fields,
        conversations = JObj fields ->
        List.find (fun kv => bool_decide (kv.1 = "Issues")) fields = None ->
        fit w util json_filename company_group_id_filter self
        = (inl (KeyError "Issues"), self)) /\
     (forall issues,
        Util.getitem conversations "Issues" = inr issues ->
        issues = JNull \/ (exists b, issues = JBool b)
        \/ (exists n, issues = JNum n) ->
        fit w util json_filename company_group_id_filter self
        = (inl TypeError, self)) /\
     (forall issues issue,
        Util.getitem conversations "Issues" = inr (JArr issues) ->
        issue ∈ issues ->
        (forall fields, issue <> JObj fields) ->
        exists e,
          fit w util json_filename company_group_id_filter self
          = (inl e, self)) /\
     (forall e,
        Util.get_operator_messages conversations company_group_id_filter
          = inl e ->
        fit w util json_filename company_group_id_filter self
        = (inl e, self))).
Proof.
  rewrite fit_unfold. unfold open_read, json_load.
  split; [|split; [|split; [|split]]].
  - intros e self' Hfit.
    destruct (files w json_filename) as [| |text];
      [by injection Hfit as _ <-|by injection Hfit as _ <-|].
    destruct (json_loads w text) as [conversations|];
      [|by injection Hfit as _ <-].
    destruct (Util.get_operator_messages conversations
                company_group_id_filter);
      [by injection Hfit as _ <-|].
    destruct (sentence_tokenize w l); [by injection Hfit as _ <-|].
    discriminate Hfit.
  - by intros ->.
  - by intros ->.
  - by intros text -> ->.
  - intros text conversations -> ->.
    split; [|split; [|split; [|split]]].
    + intros Hobj.
      destruct conversations as [| | | | |fields];
        try reflexivity. by destruct (Hobj fields).
    + intros fields -> Hfind.
      unfold Util.get_operator_messages, Util.getitem. by rewrite Hfind.
    + intros issues Hissues Hkind.
      unfold Util.get_operator_messages. rewrite Hissues.
      by destruct Hkind as [->|[[b ->]|[n ->]]].
    + intros issues issue Hissues Hin Hobj.
      unfold Util.get_operator_messages. rewrite Hissues. simpl.
      destruct (issues_loop_non_object issues issue company_group_id_filter
                  Hin Hobj []) as [e ->].
      by exists e.
    + by intros e ->.
Qed.

Lemma fit_failure_keeps_model_witness :
  files malformed_world "list.json" = Contents "[]" /\
  json_loads malformed_world "[]" = Some (JArr []) /\
  (forall fields, JArr [] <> JObj fields) /\
  fit malformed_world plain_pipeline "list.json" None (fitted corpus)
    = (inl TypeError, fitted corpus).
Proof.
  assert (Hfile : files malformed_world "list.json" = Contents "[]")
    by reflexivity.
  assert (Hjson : json_loads malformed_world "[]" = Some (JArr []))
    by reflexivity.
  assert (Hobj : forall fields, JArr [] <> JObj fields) by discriminate.
  split; [exact Hfile|]. split; [exact Hjson|]. split; [exact Hobj|].
  exact (proj1 (proj2 (proj2 (proj2 (proj2
           (fit_failure_keeps_model malformed_world plain_pipeline
              "list.json" None (fitted corpus))))) "[]" (JArr [])
           Hfile Hjson) Hobj).
Defined.
